(** * A log-tailing WebSocket server: shallow embedding and verification

    The repository holds two revisions of [server.js]:
    - the revision with [readLastLines] (backward chunked reads, synchronous
      [fs.statSync] in the watch callback), called [Chunked] below;
    - the revision documented in the README ([fs.readFile] on connect,
      asynchronous [fs.stat] in the watch callback), called [Whole] below.

    Modelling choices:
    - Text is bytewise: [Buffer.toString] is the byte-to-character
      injection, which is exact for ASCII log text; where a statement needs
      that, it says so ([asciiByte], [asciiText]).  File sizes and offsets
      are natural numbers.
    - Node runs one listener at a time.  An [Event] is either one execution
      of a listener ([Watch], [StreamData], [Connection]) or something that
      happens outside the listeners: another process changes the file, the
      transport changes the state of a socket.  A trace of events fixes the
      interleaving, so what the server does between a stat and the read of
      the stream opened after it is visible.
    - A read stream reads the file as it is when the read happens; the
      streams are served oldest first.
    - [send] on an open socket does not throw: the [ws] library reports a
      failed write later, through the socket's own events. *)

From Stdlib Require Import Strings.String Strings.Ascii Strings.Byte.
From Stdlib Require Import List Arith Lia Bool ZArith Sorting.Sorted.
From Equations Require Import Equations.
Import ListNotations.

(** ** JavaScript strings, buffers and arrays *)

Definition bytes := list byte.

(** [buf.toString()], one byte to one character.  This is what UTF-8
    decoding does on bytes below 128 (see [asciiByte]); a character of
    several bytes cut by the end of a chunk is decoded otherwise by Node.
    Statements that put the text of several chunks together therefore
    assume ASCII bytes; the others hold for any decoding of a chunk. *)
Definition toString (b : bytes) : string := string_of_list_byte b.

(** The bytes of a string literal, used to write files down. *)
Definition bytesOf (s : string) : bytes := list_byte_of_string s.

Definition LF : ascii := "010"%char.
Definition nl : string := String LF EmptyString.

(** [s.split('\n')]: never empty, [''.split('\n')] is [['']]. *)
Fixpoint split_nl (s : string) : list string :=
  match s with
  | EmptyString => [EmptyString]
  | String c rest =>
      if Ascii.eqb c LF then EmptyString :: split_nl rest
      else match split_nl rest with
           | h :: t => String c h :: t
           | [] => [String c EmptyString]
           end
  end.

(** [arr.join('\n')] *)
Fixpoint join_nl (l : list string) : string :=
  match l with
  | [] => EmptyString
  | [x] => x
  | x :: rest => (x ++ nl ++ join_nl rest)%string
  end.

(** Truthiness of a string: [line => line] keeps the non-empty ones. *)
Definition truthy (s : string) : bool :=
  match s with EmptyString => false | _ => true end.

(** [arr.slice(start)] with an integer [start]: a negative [start] counts
    from the end, and [-0] is [0]. *)
Definition slice {A : Type} (start : Z) (l : list A) : list A :=
  let len := Z.of_nat (length l) in
  let k := if (start <? 0)%Z then Z.max (len + start) 0 else Z.min start len in
  skipn (Z.to_nat k) l.

(** The ASCII white space and line terminators, which [String.prototype.trim]
    strips.  On ASCII text they are all it strips; it also strips the
    white space outside ASCII (U+00A0, U+FEFF, ...), which this text model
    does not hold. *)
Definition isSpace (c : ascii) : bool :=
  let n := nat_of_ascii c in
  (n =? 9) || (n =? 10) || (n =? 11) || (n =? 12) || (n =? 13) || (n =? 32).

Fixpoint trimStart (s : string) : string :=
  match s with
  | String c rest => if isSpace c then trimStart rest else s
  | EmptyString => EmptyString
  end.

Fixpoint trimEnd (s : string) : string :=
  match s with
  | EmptyString => EmptyString
  | String c rest =>
      match trimEnd rest with
      | EmptyString => if isSpace c then EmptyString else String c EmptyString
      | r => String c r
      end
  end.

Definition trim (s : string) : string := trimEnd (trimStart s).

(** ** The file system seen by the server: one log file, present or not *)

Definition Disk := option bytes.

(** [fs.readSync(fd, buffer, 0, length, position)] followed by
    [buffer.slice(0, length)]: the bytes of the file in
    [position, position + length). *)
Definition readSync (file : bytes) (len position : nat) : bytes :=
  firstn len (skipn position file).

(** ** readLastLines *)

Inductive Promise (A : Type) : Type :=
| Resolved (a : A)
| Rejected.
Arguments Resolved {A} a.
Arguments Rejected {A}.

Record LoopState := mkLoop { position : nat; lines : list string }.

Section ReadLastLines.

(** [buffer.length], where [buffer = Buffer.alloc(1024)]. *)
Variable bufferLength : nat.

(** [position > 0 && lines.length <= lineCount] *)
Definition loop_cond (lineCount : nat) (st : LoopState) : bool :=
  (0 <? position st) && (length (lines st) <=? lineCount).

Definition readSize (st : LoopState) : nat := Nat.min (position st) bufferLength.

(** One execution of the body of the [while] loop. *)
Definition loop_body (file : bytes) (st : LoopState) : LoopState :=
  let position' := position st - readSize st in
  let chunk := toString (readSync file (readSize st) position') in
  {| position := position'; lines := split_nl chunk ++ lines st |}.

(** The [while] loop with a budget of iterations; [None] when the budget
    runs out before the condition turns false. *)
Fixpoint while_loop (fuel : nat) (file : bytes) (lineCount : nat)
         (st : LoopState) : option LoopState :=
  if loop_cond lineCount st then
    match fuel with
    | 0 => None
    | S fuel' => while_loop fuel' file lineCount (loop_body file st)
    end
  else Some st.

(** The loop started as [readLastLines] starts it. *)
Definition run_loop (fuel : nat) (file : bytes) (lineCount : nat) : option LoopState :=
  while_loop fuel file lineCount {| position := length file; lines := [] |}.

(** [lines.filter(line => line).slice(-lineCount)] *)
Definition trim_result (lineCount : nat) (ls : list string) : list string :=
  slice (- Z.of_nat lineCount) (filter truthy ls).

(** [readLastLines(filePath, lineCount)]: [fs.statSync] throws on a missing
    file, which rejects the promise of the [async] function.  The budget
    [length file] is enough for the loop (see [while_loop_enough]). *)
Definition readLastLinesWith (disk : Disk) (lineCount : nat) : Promise (list string) :=
  match disk with
  | None => Rejected
  | Some file =>
      match run_loop (length file) file lineCount with
      | Some st => Resolved (trim_result lineCount (lines st))
      | None => Rejected
      end
  end.

End ReadLastLines.

Definition BUFFER_LENGTH : nat := 1024.

Definition readLastLines : Disk -> nat -> Promise (list string) :=
  readLastLinesWith BUFFER_LENGTH.

(** *** What the reader is meant to return

    The non-empty lines of the file, oldest first, and the last [n] of them. *)
Definition file_lines (file : bytes) : list string :=
  filter truthy (split_nl (toString file)).

Definition last_n {A : Type} (n : nat) (l : list A) : list A :=
  skipn (length l - n) l.

Definition lastLines_spec (file : bytes) (n : nat) : list string :=
  last_n n (file_lines file).

(** ** Subscribers and the registry [wss.clients] *)

Inductive ReadyState := CONNECTING | OPEN | CLOSING | CLOSED.

Definition isOpen (r : ReadyState) : bool :=
  match r with OPEN => true | _ => false end.

(** A socket of the registry.  [sent] logs, oldest first, every message on
    which [send] was invoked for this socket. *)
Record Client := mkClient { cid : nat; readyState : ReadyState; sent : list string }.

(** [client.send(msg)] *)
Definition send (msg : string) (c : Client) : Client :=
  {| cid := cid c; readyState := readyState c; sent := sent c ++ [msg] |}.

(** The callback given to [wss.clients.forEach]. *)
Definition sendIfOpen (newData : string) (client : Client) : Client :=
  if isOpen (readyState client) then send newData client else client.

(** [wss.clients.forEach(client => ...)]: the registry is a [Set], visited
    in insertion order. *)
Definition broadcast (newData : string) (clients : list Client) : list Client :=
  map (sendIfOpen newData) clients.

(** ** Read streams

    [fs.createReadStream(path, {start, end})] reads the bytes [start..end],
    both bounds inclusive, and emits them in ['data'] events of at most
    [highWaterMark] bytes (64 KiB unless the option is given); a read that
    returns no byte ends the stream. *)

Record ReadStream := mkStream { pos : nat; endPos : nat }.

Inductive StreamStep :=
| Data (chunk : bytes) (s' : ReadStream)
| End.

Definition HIGH_WATER_MARK : nat := 64 * 1024.

(** ** The server *)

Inductive Revision := Chunked | Whole.

Record World := mkWorld {
  disk : Disk;                  (* sample.log *)
  lastSize : nat;               (* let lastSize *)
  streams : list ReadStream;    (* streams opened and not yet ended, oldest first *)
  clients : list Client         (* wss.clients *)
}.

(** An uncaught exception or an unhandled ['error'] event ends the process. *)
Inductive Outcome := Running (w : World) | Crashed.

Inductive EventType := change | rename.

Inductive Event :=
| FsAppend (b : bytes)                  (* another process appends to the log *)
| FsTruncate                            (* ... empties it *)
| FsUnlink                              (* ... removes it *)
| Watch (eventType : EventType)         (* fs.watch calls the listener *)
| StreamData                            (* the oldest stream completes one read *)
| Connection (ws : nat)                 (* a socket connects *)
| SocketState (ws : nat) (r : ReadyState)  (* the transport changes a socket's state *)
| Close (ws : nat).                     (* the closed socket leaves wss.clients *)

Definition errorMessage (rev : Revision) : string :=
  match rev with
  | Chunked => "Error reading the log file."
  | Whole => "Error reading log file."
  end.

(** [fs.statSync(LOG_FILE).size] or the [stats.size] given to the callback
    of [fs.stat]; [None] when the call fails. *)
Definition statSize (d : Disk) : option nat := option_map (@length byte) d.

Section Server.

Variable highWaterMark : nat.
Variable rev : Revision.

(** One read of a stream, on the file as it is at the time of the read. *)
Definition stream_read (file : bytes) (s : ReadStream) : StreamStep :=
  let n := Nat.min (endPos s + 1 - pos s) highWaterMark in
  match readSync file n (pos s) with
  | [] => End
  | buf => Data buf {| pos := pos s + length buf; endPos := endPos s |}
  end.

(** The text sent to a connecting socket. *)
Definition initialMessage (d : Disk) : string :=
  match rev with
  | Chunked =>
      match readLastLines d 10 with
      | Resolved ls => join_nl ls
      | Rejected => errorMessage Chunked
      end
  | Whole =>
      match d with
      | Some data => join_nl (slice (-10) (split_nl (trim (toString data))))
      | None => errorMessage Whole
      end
  end.

(** The listener of [wss.on('connection')]; the socket is in the registry
    when it runs. *)
Definition onConnection (ws : nat) (w : World) : World :=
  {| disk := disk w; lastSize := lastSize w; streams := streams w;
     clients := clients w ++ [send (initialMessage (disk w)) (mkClient ws OPEN [])] |}.

(** [if (stats.size > lastSize) { createReadStream...; lastSize = stats.size }] *)
Definition onStats (size : nat) (w : World) : World :=
  if lastSize w <? size then
    {| disk := disk w; lastSize := size;
       streams := streams w ++ [{| pos := lastSize w; endPos := size |}];
       clients := clients w |}
  else w.

(** The listener of [fs.watch].  [Chunked] calls [fs.statSync], which throws
    when the file is gone; [Whole] returns on the error of [fs.stat]. *)
Definition onWatch (eventType : EventType) (w : World) : Outcome :=
  match eventType with
  | rename => Running w
  | change =>
      match statSize (disk w) with
      | Some size => Running (onStats size w)
      | None => match rev with Chunked => Crashed | Whole => Running w end
      end
  end.

(** The listener of [stream.on('data')], run on the next chunk of the
    oldest stream.  (Node may serve several open streams in any order and
    reads on through a descriptor opened before an unlink; the statements
    below that involve reads either have one stream open at a time, with
    the file present, or hold for a read of any stream.) *)
Definition onStreamData (w : World) : Outcome :=
  match streams w with
  | [] => Running w
  | s :: rest =>
      match disk w with
      | None => Crashed
      | Some file =>
          match stream_read file s with
          | End => Running {| disk := disk w; lastSize := lastSize w;
                              streams := rest; clients := clients w |}
          | Data chunk s' =>
              Running {| disk := disk w; lastSize := lastSize w;
                         streams := s' :: rest;
                         clients := broadcast (toString chunk) (clients w) |}
          end
      end
  end.

Definition setDisk (d : Disk) (w : World) : World :=
  {| disk := d; lastSize := lastSize w; streams := streams w; clients := clients w |}.

Definition setClients (cs : list Client) (w : World) : World :=
  {| disk := disk w; lastSize := lastSize w; streams := streams w; clients := cs |}.

Definition setState (ws : nat) (r : ReadyState) (c : Client) : Client :=
  if cid c =? ws then {| cid := cid c; readyState := r; sent := sent c |} else c.

Definition step (e : Event) (w : World) : Outcome :=
  match e with
  | FsAppend b =>
      Running (setDisk (Some (match disk w with Some d => d ++ b | None => b end)) w)
  | FsTruncate => Running (setDisk (Some []) w)
  | FsUnlink => Running (setDisk None w)
  | Watch eventType => onWatch eventType w
  | StreamData => onStreamData w
  | Connection ws => Running (onConnection ws w)
  | SocketState ws r => Running (setClients (map (setState ws r) (clients w)) w)
  | Close ws =>
      Running (setClients (filter (fun c => negb (cid c =? ws)) (clients w)) w)
  end.

Fixpoint run (es : list Event) (w : World) : Outcome :=
  match es with
  | [] => Running w
  | e :: es' =>
      match step e w with
      | Running w' => run es' w'
      | Crashed => Crashed
      end
  end.

End Server.

(** The server at start-up: [lastSize = fs.statSync(LOG_FILE).size], no
    stream, no socket. *)
Definition startup (file : bytes) : World :=
  {| disk := Some file; lastSize := length file; streams := []; clients := [] |}.

(** What a socket has been sent, by identity. *)
Definition sentTo (ws : nat) (w : World) : list string :=
  flat_map (fun c => if cid c =? ws then sent c else []) (clients w).

Definition concatStrings (l : list string) : string :=
  fold_right String.append EmptyString l.

(** ** Concrete logs and worlds used below *)

Definition LFb : byte := "010"%byte.

(** A 1032-byte log of two lines: 1000 times [x], then 30 times [y]. *)
Definition splitLineLog : bytes :=
  repeat "x"%byte 1000 ++ [LFb] ++ repeat "y"%byte 30 ++ [LFb].

Definition xs (n : nat) : string := toString (repeat "x"%byte n).
Definition ys (n : nat) : string := toString (repeat "y"%byte n).

(** [delta] cut into pieces of [n] bytes, the last one possibly shorter:
    the chunks a stream emits for a range it reads from an unchanged file. *)
Equations? chunksOf (n : nat) (delta : bytes) : list bytes by wf (length delta) lt :=
  chunksOf 0 _ := [];
  chunksOf (S n) [] := [];
  chunksOf (S n) (b :: rest) := firstn (S n) (b :: rest) :: chunksOf (S n) (skipn (S n) (b :: rest)).
Proof. simpl. rewrite length_skipn. lia. Qed.

(** Several broadcasts in a row, oldest message first. *)
Definition broadcastAll (msgs : list string) (cs : list Client) : list Client :=
  fold_left (fun cs msg => broadcast msg cs) msgs cs.

(** A watch event followed by [k] reads of the stream. *)
Definition notifyAndRead (k : nat) : list Event :=
  Watch change :: repeat StreamData k.

(** An append that lands between the stat of one watch event and the read
    of the stream that event opened. *)
Definition raceTrace : list Event :=
  [Connection 1;
   FsAppend (bytesOf "ab"); Watch change;
   FsAppend (bytesOf "cd"); StreamData; StreamData;
   Watch change; StreamData; StreamData].

(** Append [X], let it be delivered, empty the file, append [Y]; every
    change of the file is followed by a watch event and two reads. *)
Definition truncationScenario (X Y : bytes) : list Event :=
  FsAppend X :: notifyAndRead 2
  ++ FsTruncate :: notifyAndRead 2
  ++ FsAppend Y :: notifyAndRead 2.

(** One byte more than a stream emits at once. *)
Definition bigGrowth : bytes := repeat "a"%byte (S HIGH_WATER_MARK).

(** A registry with an open, a closing and a closed socket, and a stream
    about to read the five bytes of the log. *)
Definition mixedRegistry : World :=
  {| disk := Some (bytesOf "hello"); lastSize := 5;
     streams := [{| pos := 0; endPos := 5 |}];
     clients := [mkClient 1 OPEN []; mkClient 2 CLOSING []; mkClient 3 CLOSED ["old"%string]] |}.

(** The same registry once that stream has read and the chunk has been
    broadcast. *)
Definition mixedRegistryAfterRead : World :=
  {| disk := Some (bytesOf "hello"); lastSize := 5;
     streams := [{| pos := 5; endPos := 5 |}];
     clients := [mkClient 1 OPEN ["hello"%string]; mkClient 2 CLOSING [];
                 mkClient 3 CLOSED ["old"%string]] |}.

(** The log has grown from two to five bytes and the listener of the watch
    has not run yet. *)
Definition grownLog : World :=
  setDisk (Some (bytesOf "abcde")) (startup (bytesOf "ab")).

(** The same, with one open socket in the registry. *)
Definition grownLogWithViewer : World :=
  setClients [mkClient 1 OPEN []] grownLog.

(** What [msgs], sent one broadcast after the other, leave in a socket. *)
Definition sendAllIfOpen (msgs : list string) (c : Client) : Client :=
  if isOpen (readyState c)
  then {| cid := cid c; readyState := readyState c; sent := sent c ++ msgs |}
  else c.

(** An append followed by two watch events for it (the second one finds
    nothing new) and by all the reads of the stream, before the file changes
    again. *)
Definition appendAndSettle (highWaterMark : nat) (b : bytes) : list Event :=
  FsAppend b :: Watch change :: Watch change
  :: repeat StreamData (S (length (chunksOf highWaterMark b))).

Definition quietTrace (highWaterMark : nat) (appends : list bytes) : list Event :=
  flat_map (appendAndSettle highWaterMark) appends.

(** The growth messages of a quiet trace. *)
Definition growthMessages (highWaterMark : nat) (appends : list bytes) : list string :=
  flat_map (fun b => map toString (chunksOf highWaterMark b)) appends.

(** A string without a line feed: what [split('\n')] produces. *)
Fixpoint noLF (s : string) : bool :=
  match s with
  | EmptyString => true
  | String c rest => negb (Ascii.eqb c LF) && noLF rest
  end.

(** A small log of three lines. *)
Definition threeLines : bytes := bytesOf ("a" ++ nl ++ "b" ++ nl ++ "c" ++ nl).

(** Fifteen bytes with white space around two lines. *)
Definition paddedLog : bytes := bytesOf ("  first" ++ nl ++ "second " ++ nl).

(** Events in which no socket connects, changes state or leaves. *)
Definition serverEvent (e : Event) : bool :=
  match e with
  | Connection _ | SocketState _ _ | Close _ => false
  | _ => true
  end.

(** Events that leave the log file in place. *)
Definition keepsFile (e : Event) : bool :=
  match e with FsUnlink => false | _ => true end.

(** Events that do not shrink the log file. *)
Definition appendOnly (e : Event) : bool :=
  match e with FsUnlink | FsTruncate => false | _ => true end.

(** The streams of a world are in order: each one stands at most one byte
    past its inclusive upper bound, ends at or below [lastSize], and starts
    at or after the upper bound of every stream opened before it. *)
Definition streamsInOrder (w : World) : Prop :=
  Forall (fun s => pos s <= endPos s + 1 /\ endPos s <= lastSize w) (streams w)
  /\ StronglySorted (fun s1 s2 => endPos s1 <= pos s2) (streams w).

(** ** The page script

    [public/script.js] and the script printed in the README keep the text
    of one element and add to it in the listeners of the socket. *)

Inductive Script := PublicScript | ReadmeScript.

Inductive SocketEvent :=
| OnOpen
| OnMessage (data : string)
| OnError
| OnClose.

(** One listener of the socket, on the [textContent] of the log element. *)
Definition pageStep (script : Script) (e : SocketEvent) (textContent : string) : string :=
  match e with
  | OnOpen => textContent
  | OnMessage data => (textContent ++ (data ++ nl))%string
  | OnError =>
      match script with
      | PublicScript => textContent
      | ReadmeScript => (textContent ++ ("Error connecting to the server." ++ nl))%string
      end
  | OnClose =>
      match script with
      | PublicScript => textContent
      | ReadmeScript => (textContent ++ ("Connection closed." ++ nl))%string
      end
  end.

Definition pageRun (script : Script) (es : list SocketEvent) (textContent : string) : string :=
  fold_left (fun text e => pageStep script e text) es textContent.

(** The server just started on a 2-byte log, with one open socket. *)
Definition startedWithViewer : World :=
  setClients [mkClient 1 OPEN []] (startup (bytesOf "ab")).

(** Does the string begin, or end, with a character that [trim] strips? *)
Definition startsWithSpace (s : string) : bool :=
  match s with
  | String c _ => isSpace c
  | EmptyString => false
  end.

Fixpoint endsWithSpace (s : string) : bool :=
  match s with
  | EmptyString => false
  | String c EmptyString => isSpace c
  | String _ rest => endsWithSpace rest
  end.

(** The text without its line feeds. *)
Fixpoint removeLF (s : string) : string :=
  match s with
  | EmptyString => EmptyString
  | String c rest => if Ascii.eqb c LF then removeLF rest else String c (removeLF rest)
  end.

(** Events other than a read of a stream. *)
Definition notStreamData (e : Event) : bool :=
  match e with StreamData => false | _ => true end.

(** ASCII bytes and ASCII text: where decoding UTF-8 is bytewise. *)
Definition asciiByte (b : byte) : bool := Byte.to_nat b <? 128.

Fixpoint asciiText (s : string) : bool :=
  match s with
  | EmptyString => true
  | String c rest => (nat_of_ascii c <? 128) && asciiText rest
  end.

(** A 4-byte log that has been delivered to its one open socket: the offset
    is at the end of the file and no stream is open. *)
Definition settledViewer : World :=
  {| disk := Some (bytesOf "abcd"); lastSize := 4; streams := [];
     clients := [mkClient 1 OPEN ["cd"%string]] |}.

(** * Properties of the JavaScript primitives *)

Lemma toString_app (a b : bytes) :
  toString (a ++ b) = (toString a ++ toString b)%string.
Proof.
  unfold toString, string_of_list_byte.
  induction a as [|x a IH]; simpl; [reflexivity|].
  now rewrite IH.
Qed.

Lemma slice_neg_last_n (A : Type) (n : nat) (l : list A) :
  0 < n -> slice (- Z.of_nat n) l = last_n n l.
Proof.
  intros Hn. unfold slice, last_n.
  destruct (Z.ltb_spec (- Z.of_nat n) 0) as [_|H]; [|lia].
  f_equal. lia.
Qed.

Lemma slice_neg_zero (A : Type) (l : list A) : slice (- Z.of_nat 0) l = l.
Proof.
  unfold slice. cbn [Z.of_nat Z.opp Z.ltb Z.compare].
  now replace (Z.min 0 (Z.of_nat (length l))) with 0%Z by lia.
Qed.

Lemma readSync_all (file : bytes) : readSync file (length file) 0 = file.
Proof. unfold readSync. simpl. apply firstn_all. Qed.

(** * The backward loop of readLastLines *)

Section LoopFacts.

Variable bufferLength : nat.
Hypothesis buffer_positive : 0 < bufferLength.

Lemma readSize_bounds (st : LoopState) :
  0 < position st ->
  1 <= readSize bufferLength st /\ readSize bufferLength st <= position st.
Proof. unfold readSize. lia. Qed.

Lemma loop_body_decreases (file : bytes) (st : LoopState) :
  0 < position st ->
  position (loop_body bufferLength file st) < position st.
Proof.
  intros Hp. destruct (readSize_bounds st Hp) as [H1 H2].
  unfold loop_body. simpl. lia.
Qed.

(** A budget of [position] iterations is enough: the loop ends. *)
Lemma while_loop_enough (file : bytes) (lineCount : nat) :
  forall fuel st, position st <= fuel ->
    exists st', while_loop bufferLength fuel file lineCount st = Some st'.
Proof.
  induction fuel as [|fuel IH]; intros st Hfuel; simpl.
  - unfold loop_cond. replace (position st) with 0 by lia.
    simpl. eauto.
  - destruct (loop_cond lineCount st) eqn:Hc; [|eauto].
    apply IH. unfold loop_cond in Hc.
    apply andb_true_iff in Hc. destruct Hc as [Hpos _].
    apply Nat.ltb_lt in Hpos.
    pose proof (loop_body_decreases file st Hpos). lia.
Qed.

Lemma readLastLinesWith_resolves (file : bytes) (lineCount : nat) :
  exists ls, readLastLinesWith bufferLength (Some file) lineCount = Resolved ls.
Proof.
  unfold readLastLinesWith, run_loop.
  destruct (while_loop_enough file lineCount (length file)
              {| position := length file; lines := [] |} (le_n _)) as [st' ->].
  eauto.
Qed.

(** A file that fits in the buffer is read in one chunk, and then the
    result is the last [lineCount] non-empty lines. *)
Lemma readLastLinesWith_single_chunk (file : bytes) (lineCount : nat) :
  length file <= bufferLength -> 0 < lineCount ->
  readLastLinesWith bufferLength (Some file) lineCount
  = Resolved (lastLines_spec file lineCount).
Proof.
  intros Hfit Hn. unfold readLastLinesWith, run_loop, lastLines_spec, file_lines.
  destruct file as [|b file].
  - simpl. unfold trim_result. simpl.
    now rewrite slice_neg_last_n by assumption.
  - remember (b :: file) as f eqn:Hf.
    assert (Hlen : length f = S (length file)) by (subst f; reflexivity).
    rewrite Hlen. cbn [while_loop].
    unfold loop_cond at 1. cbn [position lines length].
    rewrite <- Hlen.
    replace (0 <? length f) with true by (symmetry; apply Nat.ltb_lt; lia).
    cbn [andb Nat.leb].
    unfold loop_body, readSize. cbn [position lines].
    replace (Nat.min (length f) bufferLength) with (length f) by lia.
    rewrite Nat.sub_diag, readSync_all, app_nil_r.
    destruct (length file); cbn [while_loop loop_cond position andb Nat.ltb Nat.leb];
      unfold trim_result; cbn [lines];
      now rewrite slice_neg_last_n by assumption.
Qed.

End LoopFacts.

(** C9. [readLastLines] terminates on every file and every line count: the
    promise resolves within a budget of [stats.size] iterations, because
    each iteration reads [readSize = min(position, 1024) >= 1] bytes and
    strictly decreases [position], which is bounded below by 0. *)
Theorem readLastLines_terminates (file : bytes) (lineCount : nat) :
  (exists ls, readLastLines (Some file) lineCount = Resolved ls)
  /\ (forall st : LoopState, 0 < position st ->
        1 <= readSize BUFFER_LENGTH st
        /\ position (loop_body BUFFER_LENGTH file st) < position st).
Proof.
  assert (Hpos : 0 < BUFFER_LENGTH) by (unfold BUFFER_LENGTH; lia).
  split.
  - apply readLastLinesWith_resolves, Hpos.
  - intros st Hst. split.
    + apply (readSize_bounds _ Hpos st Hst).
    + apply (loop_body_decreases _ Hpos file st Hst).
Qed.

Lemma readLastLines_terminates_witness :
  (exists ls, readLastLines (Some (bytesOf "a")) 10 = Resolved ls)
  /\ 1 <= readSize BUFFER_LENGTH {| position := 1; lines := [] |}
  /\ position (loop_body BUFFER_LENGTH (bytesOf "a") {| position := 1; lines := [] |}) < 1.
Proof.
  destruct (readLastLines_terminates (bytesOf "a") 10) as [H1 H2].
  split; [exact H1|].
  apply (H2 {| position := 1; lines := [] |}). simpl. lia.
Defined.

(** C1. On the 1032-byte log [splitLineLog] the first backward read covers
    bytes 8..1031 and the second bytes 0..7: the 1000-character line comes
    back as two fragments, where the last 10 non-empty lines are the two
    lines of the file. *)
Theorem readLastLines_splits_line_at_chunk_boundary :
  readLastLines (Some splitLineLog) 10 = Resolved [xs 8; xs 992; ys 30]
  /\ lastLines_spec splitLineLog 10 = [xs 1000; ys 30].
Proof. split; vm_compute; reflexivity. Qed.

(** With a line count of 0 the loop still reads one chunk, and [slice(-0)]
    is [slice(0)]: every non-empty line of that chunk is returned. *)
Example readLastLines_zero_count :
  readLastLines (Some (bytesOf ("a" ++ nl ++ "b" ++ nl))) 0 = Resolved ["a"; "b"]%string
  /\ lastLines_spec (bytesOf ("a" ++ nl ++ "b" ++ nl)) 0 = [].
Proof. split; reflexivity. Qed.

(** * The registry and the broadcast *)

Lemma sendIfOpen_open (newData : string) (c : Client) :
  readyState c = OPEN -> sendIfOpen newData c = send newData c.
Proof. intros H. unfold sendIfOpen. now rewrite H. Qed.

Lemma sendIfOpen_not_open (newData : string) (c : Client) :
  readyState c <> OPEN -> sendIfOpen newData c = c.
Proof. intros H. unfold sendIfOpen. destruct (readyState c); simpl; congruence. Qed.

Lemma sendIfOpen_cases (newData : string) (c : Client) :
  sendIfOpen newData c = c
  \/ (readyState c = OPEN /\ sendIfOpen newData c = send newData c).
Proof.
  destruct (readyState c) eqn:Hr;
    try (left; apply sendIfOpen_not_open; congruence).
  right. split; [reflexivity|]. now apply sendIfOpen_open.
Qed.

Lemma broadcast_app (newData : string) (cs1 cs2 : list Client) :
  broadcast newData (cs1 ++ cs2) = broadcast newData cs1 ++ broadcast newData cs2.
Proof. apply map_app. Qed.

Lemma broadcast_all_open (newData : string) (cs : list Client) :
  Forall (fun c => readyState c = OPEN) cs ->
  broadcast newData cs = map (send newData) cs.
Proof.
  induction 1 as [|c cs Hc _ IH]; simpl; [reflexivity|].
  now rewrite sendIfOpen_open, IH.
Qed.

(** The registry itself is not changed by a broadcast: same sockets, same
    order, same states. *)
Lemma broadcast_registry (newData : string) (cs : list Client) :
  map cid (broadcast newData cs) = map cid cs
  /\ map readyState (broadcast newData cs) = map readyState cs.
Proof.
  unfold broadcast. rewrite !map_map. split; apply map_ext; intros c;
    destruct (sendIfOpen_cases newData c) as [->|[_ ->]]; reflexivity.
Qed.

Lemma broadcast_pointwise (newData : string) (cs : list Client) :
  Forall2 (fun c c' => c' = c \/ (readyState c = OPEN /\ c' = send newData c))
          cs (broadcast newData cs).
Proof.
  induction cs as [|c cs IH]; simpl; constructor; [|exact IH].
  apply sendIfOpen_cases.
Qed.

(** C10. A growth broadcast invokes [send] only on sockets whose
    [readyState] is [OPEN]: after the ['data'] listener has run, every socket
    of the registry is either exactly as before or was open and has one more
    message in its log; a closed or closing socket is skipped and the
    listener does not fail on it. *)
Theorem growth_broadcast_sends_only_to_open (highWaterMark : nat) (w w' : World) :
  onStreamData highWaterMark w = Running w' ->
  Forall2 (fun c c' => c' = c
                       \/ (readyState c = OPEN /\ exists newData, c' = send newData c))
          (clients w) (clients w').
Proof.
  unfold onStreamData. intros H.
  assert (Hsame : forall cs : list Client,
             Forall2 (fun c c' => c' = c
                        \/ (readyState c = OPEN /\ exists newData, c' = send newData c)) cs cs).
  { induction cs; constructor; auto. }
  destruct (streams w) as [|s rest]; [injection H as <-; apply Hsame|].
  destruct (disk w) as [file|]; [|discriminate].
  destruct (stream_read highWaterMark file s) as [chunk s'|];
    injection H as <-; simpl; [|apply Hsame].
  eapply Forall2_impl; [|apply broadcast_pointwise].
  intros c c' [->|[Ho ->]]; [now left|right; eauto].
Qed.

Lemma growth_broadcast_sends_only_to_open_witness :
  Forall2 (fun c c' => c' = c
                       \/ (readyState c = OPEN /\ exists newData, c' = send newData c))
          (clients mixedRegistry) (clients mixedRegistryAfterRead).
Proof.
  apply (growth_broadcast_sends_only_to_open HIGH_WATER_MARK mixedRegistry
           mixedRegistryAfterRead).
  reflexivity.
Defined.

(** C6, as stated, fails: a socket that is not open when the broadcast runs
    is skipped, and nothing removes it from the registry. *)
Lemma closed_subscriber_stays_in_registry :
  ~ (forall (newData : string) (A B C : Client),
        readyState A = OPEN -> readyState C = OPEN -> readyState B <> OPEN ->
        broadcast newData [A; B; C]
        = [send newData A; send newData C]).
Proof.
  intros H.
  specialize (H "x"%string (mkClient 1 OPEN []) (mkClient 2 CLOSED []) (mkClient 3 OPEN [])
                eq_refl eq_refl).
  discriminate H. discriminate.
Qed.

(** C6, amended. In a broadcast over a registry in which [B] is not open
    and every other socket is, every other socket is sent the message, [B]
    is skipped, and [B] stays in the registry, unchanged and in its place. *)
Theorem broadcast_skips_closed_subscriber
        (newData : string) (before after : list Client) (B : Client) :
  Forall (fun c => readyState c = OPEN) (before ++ after) ->
  readyState B <> OPEN ->
  broadcast newData (before ++ B :: after)
  = map (send newData) before ++ B :: map (send newData) after.
Proof.
  intros Hopen HB. apply Forall_app in Hopen. destruct Hopen as [H1 H2].
  rewrite broadcast_app. simpl.
  rewrite sendIfOpen_not_open by assumption.
  fold (broadcast newData after).
  now rewrite !broadcast_all_open by assumption.
Qed.

Lemma broadcast_skips_closed_subscriber_witness :
  broadcast "x" ([mkClient 1 OPEN []] ++ mkClient 2 CLOSED [] :: [mkClient 3 OPEN []])
  = map (send "x") [mkClient 1 OPEN []] ++ mkClient 2 CLOSED []
      :: map (send "x") [mkClient 3 OPEN []].
Proof.
  apply (broadcast_skips_closed_subscriber "x" [mkClient 1 OPEN []] [mkClient 3 OPEN []]
           (mkClient 2 CLOSED [])).
  - repeat constructor.
  - discriminate.
Defined.

(** * The connect path *)

Lemma readLastLines_missing (lineCount : nat) : readLastLines None lineCount = Rejected.
Proof. reflexivity. Qed.

Lemma initialMessage_missing (rev : Revision) :
  initialMessage rev None = errorMessage rev.
Proof. destruct rev; reflexivity. Qed.

(** C7. When the log file is missing or unreadable at the time a socket
    connects, the connect path keeps the server running, sends the error
    message to the connecting socket and to no other: the sockets already in
    the registry, the offset and the open streams are left as they were. *)
Theorem connect_error_goes_to_requester_only
        (highWaterMark : nat) (rev : Revision) (ws : nat) (w : World) :
  disk w = None ->
  step highWaterMark rev (Connection ws) w
  = Running {| disk := None; lastSize := lastSize w; streams := streams w;
               clients := clients w ++ [mkClient ws OPEN [errorMessage rev]] |}.
Proof.
  intros Hd. simpl. unfold onConnection.
  now rewrite Hd, initialMessage_missing.
Qed.

Lemma connect_error_goes_to_requester_only_witness :
  step HIGH_WATER_MARK Chunked (Connection 7) (setDisk None mixedRegistry)
  = Running {| disk := None; lastSize := 5; streams := [{| pos := 0; endPos := 5 |}];
               clients := clients mixedRegistry
                          ++ [mkClient 7 OPEN ["Error reading the log file."%string]] |}.
Proof.
  apply (connect_error_goes_to_requester_only HIGH_WATER_MARK Chunked 7
           (setDisk None mixedRegistry)).
  reflexivity.
Defined.

(** * The offset [lastSize] *)

Lemma onStats_lastSize (size : nat) (w : World) :
  lastSize (onStats size w) = lastSize w
  \/ (lastSize w < size /\ lastSize (onStats size w) = size).
Proof.
  unfold onStats. destruct (Nat.ltb_spec (lastSize w) size); simpl; auto.
Qed.

Lemma onWatch_lastSize (rev : Revision) (eventType : EventType) (w w' : World) :
  onWatch rev eventType w = Running w' ->
  lastSize w' = lastSize w
  \/ (lastSize w < lastSize w' /\ statSize (disk w) = Some (lastSize w')).
Proof.
  unfold onWatch. intros H.
  destruct eventType; [|injection H as <-; now left].
  destruct (statSize (disk w)) as [size|] eqn:Hs.
  - injection H as <-.
    destruct (onStats_lastSize size w) as [He|[Hlt He]]; [now left|].
    right. rewrite He. auto.
  - destruct rev; [discriminate|]. injection H as <-. now left.
Qed.

Lemma onStats_no_growth (size : nat) (w : World) :
  size <= lastSize w -> onStats size w = w.
Proof.
  intros H. unfold onStats.
  now replace (lastSize w <? size) with false by (symmetry; apply Nat.ltb_ge; assumption).
Qed.

Lemma onWatch_change_present (rev : Revision) (w : World) (file : bytes) :
  disk w = Some file ->
  onWatch rev change w = Running (onStats (length file) w).
Proof. intros H. unfold onWatch, statSize. now rewrite H. Qed.

Lemma onStreamData_lastSize (highWaterMark : nat) (w w' : World) :
  onStreamData highWaterMark w = Running w' -> lastSize w' = lastSize w.
Proof.
  unfold onStreamData. intros H.
  destruct (streams w) as [|s rest]; [now injection H as <-|].
  destruct (disk w) as [file|]; [|discriminate].
  destruct (stream_read highWaterMark file s); now injection H as <-.
Qed.

Lemma step_lastSize (highWaterMark : nat) (rev : Revision) (e : Event) (w w' : World) :
  step highWaterMark rev e w = Running w' -> lastSize w <= lastSize w'.
Proof.
  destruct e; simpl; intros H;
    try (injection H as <-; simpl; lia).
  - apply onWatch_lastSize in H. lia.
  - apply onStreamData_lastSize in H. lia.
Qed.

Lemma run_lastSize (highWaterMark : nat) (rev : Revision) (es : list Event) :
  forall w w', run highWaterMark rev es w = Running w' -> lastSize w <= lastSize w'.
Proof.
  induction es as [|e es IH]; simpl; intros w w' H.
  - injection H as <-. lia.
  - destruct (step highWaterMark rev e w) as [w1|] eqn:He; [|discriminate].
    apply step_lastSize in He. apply IH in H. lia.
Qed.

(** C8. [lastSize] never decreases while the server runs.  Each execution of
    the watch listener leaves it unchanged or assigns it a strictly larger
    value, the size just returned by stat; no other event changes it, so it
    is non-decreasing along every sequence of events. *)
Theorem lastSize_is_monotone (highWaterMark : nat) (rev : Revision) :
  (forall (eventType : EventType) (w w' : World),
      onWatch rev eventType w = Running w' ->
      lastSize w' = lastSize w
      \/ (lastSize w < lastSize w' /\ statSize (disk w) = Some (lastSize w')))
  /\ (forall (es : list Event) (w w' : World),
         run highWaterMark rev es w = Running w' -> lastSize w <= lastSize w').
Proof.
  split.
  - apply onWatch_lastSize.
  - apply run_lastSize.
Qed.

Lemma lastSize_is_monotone_witness :
  (lastSize (onStats 5 grownLog) = lastSize grownLog
   \/ (lastSize grownLog < lastSize (onStats 5 grownLog)
        /\ statSize (disk grownLog) = Some (lastSize (onStats 5 grownLog))))
  /\ lastSize (startup (bytesOf "ab")) <= lastSize (onStats 5 grownLog).
Proof.
  destruct (lastSize_is_monotone HIGH_WATER_MARK Whole) as [H1 H2].
  split.
  - apply (H1 change grownLog). reflexivity.
  - apply (H2 [FsAppend (bytesOf "cde"); Watch rename; Watch change]
              (startup (bytesOf "ab"))).
    reflexivity.
Defined.

(** C5, as stated, fails: the listener of the watch assigns [lastSize] in the
    same execution that opens the stream, before any byte of the delta has
    been read or sent. *)
Lemma lastSize_advances_before_delivery :
  ~ (forall (highWaterMark : nat) (rev : Revision) (w w' : World) (file : bytes),
        disk w = Some file ->
        step highWaterMark rev (Watch change) w = Running w' ->
        lastSize w < lastSize w' ->
        streams w' = streams w
        /\ Forall (fun c => readyState c = OPEN ->
                           In (toString (readSync file (lastSize w' - lastSize w) (lastSize w)))
                              (sent c))
                  (clients w')).
Proof.
  intros H.
  destruct (H HIGH_WATER_MARK Chunked grownLogWithViewer
              {| disk := Some (bytesOf "abcde"); lastSize := 5;
                 streams := [{| pos := 2; endPos := 5 |}];
                 clients := [mkClient 1 OPEN []] |}
              (bytesOf "abcde") eq_refl eq_refl) as [Hs _].
  - simpl. lia.
  - discriminate Hs.
Qed.

(** C5, amended. When the listener of the watch finds the file larger than
    [lastSize], it opens the stream for the delta and sets [lastSize] to
    the new size at once: the stream is still pending and no socket has been
    sent anything.  The reads that follow never change [lastSize]. *)
Theorem lastSize_advances_when_stream_opens
        (highWaterMark : nat) (rev : Revision) (w : World) (file : bytes) :
  disk w = Some file -> lastSize w < length file ->
  step highWaterMark rev (Watch change) w
  = Running {| disk := Some file; lastSize := length file;
               streams := streams w ++ [{| pos := lastSize w; endPos := length file |}];
               clients := clients w |}
  /\ (forall w1 w2 : World,
         step highWaterMark rev StreamData w1 = Running w2 -> lastSize w2 = lastSize w1).
Proof.
  intros Hd Hlt. split.
  - simpl. unfold onWatch, statSize, onStats. rewrite Hd. simpl.
    apply Nat.ltb_lt in Hlt. now rewrite Hlt.
  - intros w1 w2. apply onStreamData_lastSize.
Qed.

Lemma lastSize_advances_when_stream_opens_witness :
  step HIGH_WATER_MARK Chunked (Watch change) grownLogWithViewer
  = Running {| disk := Some (bytesOf "abcde"); lastSize := 5;
               streams := [{| pos := 2; endPos := 5 |}];
               clients := [mkClient 1 OPEN []] |}
  /\ lastSize mixedRegistryAfterRead = lastSize mixedRegistry.
Proof.
  destruct (lastSize_advances_when_stream_opens HIGH_WATER_MARK Chunked
              grownLogWithViewer (bytesOf "abcde") eq_refl) as [H1 H2].
  - simpl. lia.
  - split; [exact H1|].
    apply (H2 mixedRegistry mixedRegistryAfterRead). reflexivity.
Defined.

(** * Truncation *)

(** C3, as stated, fails: the listener compares with [>] only, so after a
    truncation the offset keeps its old value.  With a 2-byte log, [X = cd]
    and [Y = xyz] the socket is never sent [Y] and [lastSize] ends at 4. *)
Lemma truncation_is_not_recovered :
  ~ (forall (rev : Revision) (file X Y : bytes),
        X <> [] -> Y <> [] ->
        exists w : World,
          run HIGH_WATER_MARK rev (Connection 1 :: truncationScenario X Y) (startup file)
          = Running w
          /\ lastSize w = length Y
          /\ In (toString Y) (sentTo 1 w)).
Proof.
  intros H.
  destruct (H Chunked (bytesOf "ab") (bytesOf "cd") (bytesOf "xyz"))
    as [w [Hrun [Hsize _]]]; try discriminate.
  vm_compute in Hrun. injection Hrun as <-.
  discriminate Hsize.
Qed.

(** The watch events alone, from any state: when the file is emptied and
    [Y] is then appended, the listener does nothing with [len(Y) <= lastSize]
    and with [len(Y) > lastSize] it sets [lastSize] to [len(Y)] and opens a
    stream that starts at the old offset. *)
Lemma truncation_watch_events
        (highWaterMark : nat) (rev : Revision) (w : World) (Y : bytes) :
  run highWaterMark rev [FsTruncate; Watch change; FsAppend Y; Watch change] w
  = Running (if length Y <=? lastSize w
             then setDisk (Some Y) w
             else {| disk := Some Y; lastSize := length Y;
                     streams := streams w ++ [{| pos := lastSize w; endPos := length Y |}];
                     clients := clients w |}).
Proof.
  change (run highWaterMark rev [FsTruncate; Watch change; FsAppend Y; Watch change] w)
    with (match onWatch rev change (setDisk (Some []) w) with
          | Running w1 =>
              run highWaterMark rev [FsAppend Y; Watch change] w1
          | Crashed => Crashed
          end).
  rewrite (onWatch_change_present rev (setDisk (Some []) w) [] eq_refl).
  rewrite onStats_no_growth by (simpl; lia).
  change (run highWaterMark rev [FsAppend Y; Watch change] (setDisk (Some []) w))
    with (match onWatch rev change (setDisk (Some Y) w) with
          | Running w1 => Running w1
          | Crashed => Crashed
          end).
  rewrite (onWatch_change_present rev (setDisk (Some Y) w) Y eq_refl).
  unfold onStats. cbn [lastSize disk streams clients setDisk].
  destruct (Nat.leb_spec (length Y) (lastSize w)) as [Hle|Hgt].
  - replace (lastSize w <? length Y) with false
      by (symmetry; apply Nat.ltb_ge; assumption).
    reflexivity.
  - replace (lastSize w <? length Y) with true
      by (symmetry; apply Nat.ltb_lt; assumption).
    reflexivity.
Qed.

(** * Streams: how a delta reaches the sockets *)

Lemma firstn_min_length {A : Type} (k : nat) (l : list A) :
  firstn (Nat.min (length l + 1) k) l = firstn k l.
Proof.
  destruct (Nat.le_gt_cases k (length l + 1)) as [H|H].
  - now rewrite Nat.min_r by assumption.
  - rewrite Nat.min_l by lia. rewrite !firstn_all2 by lia. reflexivity.
Qed.

Lemma skipn_min_length {A : Type} (k : nat) (l : list A) :
  skipn (Nat.min k (length l)) l = skipn k l.
Proof.
  destruct (Nat.le_gt_cases k (length l)) as [H|H].
  - now rewrite Nat.min_l by assumption.
  - rewrite Nat.min_r by lia. rewrite !skipn_all2 by lia. reflexivity.
Qed.

(** A stream opened up to the size of the file, reading the file unchanged:
    the inclusive upper bound asks for one byte that is not there. *)
Lemma stream_read_unchanged (hwm : nat) (d : bytes) (p : nat) :
  p <= length d ->
  stream_read hwm d {| pos := p; endPos := length d |}
  = match firstn hwm (skipn p d) with
    | [] => End
    | buf => Data buf {| pos := p + length buf; endPos := length d |}
    end.
Proof.
  intros Hp. unfold stream_read, readSync. cbn [pos endPos].
  replace (length d + 1 - p) with (length (skipn p d) + 1)
    by (rewrite length_skipn; lia).
  now rewrite firstn_min_length.
Qed.

Lemma chunksOf_nil (n : nat) : chunksOf n [] = [].
Proof. destruct n; now simp chunksOf. Qed.

Lemma chunksOf_cons (n : nat) (b : byte) (rest : bytes) :
  0 < n ->
  chunksOf n (b :: rest) = firstn n (b :: rest) :: chunksOf n (skipn n (b :: rest)).
Proof. destruct n; [lia|]. intros _. now simp chunksOf. Qed.

Lemma chunksOf_single (n : nat) (delta : bytes) :
  0 < length delta <= n -> chunksOf n delta = [delta].
Proof.
  intros [Hpos Hle]. destruct delta as [|b rest]; [simpl in Hpos; lia|].
  rewrite chunksOf_cons by lia.
  rewrite firstn_all2, skipn_all2 by assumption.
  now rewrite chunksOf_nil.
Qed.

Section Chunks.

Variable n : nat.
Hypothesis n_positive : 0 < n.

Lemma chunksOf_concat_bounded (k : nat) :
  forall delta : bytes, length delta <= k ->
    concat (chunksOf n delta) = delta
    /\ Forall (fun chunk => 0 < length chunk <= n) (chunksOf n delta).
Proof.
  induction k as [|k IH]; intros [|b rest] Hk;
    try (rewrite chunksOf_nil; split; [reflexivity|constructor]).
  - simpl in Hk. lia.
  - rewrite chunksOf_cons by assumption.
    destruct (IH (skipn n (b :: rest))) as [Hc Hf].
    { rewrite length_skipn. cbn [length] in Hk |- *. lia. }
    split.
    + cbn [concat]. rewrite Hc. apply firstn_skipn.
    + constructor; [|exact Hf].
      rewrite length_firstn. cbn [length]. lia.
Qed.

Lemma chunksOf_concat (delta : bytes) : concat (chunksOf n delta) = delta.
Proof. apply (chunksOf_concat_bounded (length delta)), le_n. Qed.

Lemma chunksOf_bounds (delta : bytes) :
  Forall (fun chunk => 0 < length chunk <= n) (chunksOf n delta).
Proof. apply (chunksOf_concat_bounded (length delta)), le_n. Qed.

End Chunks.

Lemma sendAllIfOpen_nil (c : Client) : sendAllIfOpen [] c = c.
Proof.
  unfold sendAllIfOpen. destruct c as [i r l]; simpl.
  destruct (isOpen r); [|reflexivity]. now rewrite app_nil_r.
Qed.

Lemma sendAllIfOpen_cons (msg : string) (msgs : list string) (c : Client) :
  sendAllIfOpen msgs (sendIfOpen msg c) = sendAllIfOpen (msg :: msgs) c.
Proof.
  unfold sendAllIfOpen, sendIfOpen.
  destruct (isOpen (readyState c)) eqn:Ho; simpl; rewrite Ho; [|reflexivity].
  now rewrite <- app_assoc.
Qed.

Lemma broadcastAll_sendAll (msgs : list string) :
  forall cs, broadcastAll msgs cs = map (sendAllIfOpen msgs) cs.
Proof.
  induction msgs as [|msg msgs IH]; intros cs; cbn [broadcastAll fold_left].
  - rewrite <- (map_id cs) at 1. apply map_ext. intros c.
    symmetry. apply sendAllIfOpen_nil.
  - fold (broadcastAll msgs (broadcast msg cs)).
    rewrite IH. unfold broadcast. rewrite map_map.
    apply map_ext. intros c. apply sendAllIfOpen_cons.
Qed.

Section Delivery.

Variable hwm : nat.
Variable rev : Revision.
Hypothesis hwm_positive : 0 < hwm.

(** The reads of one stream over an unchanged file: one ['data'] event per
    chunk of the delta, then the read that ends the stream. *)
Lemma drain_stream (d : bytes) (L : nat) (rest : list ReadStream) :
  forall (k : nat) (delta : bytes) (p : nat) (cs : list Client),
    length delta <= k -> p <= length d -> skipn p d = delta ->
    run hwm rev (repeat StreamData (S (length (chunksOf hwm delta))))
        {| disk := Some d; lastSize := L;
           streams := {| pos := p; endPos := length d |} :: rest; clients := cs |}
    = Running {| disk := Some d; lastSize := L; streams := rest;
                 clients := broadcastAll (map toString (chunksOf hwm delta)) cs |}.
Proof.
  induction k as [|k IH]; intros delta p cs Hk Hp Hdelta.
  - destruct delta; [|simpl in Hk; lia].
    rewrite chunksOf_nil. cbn [length repeat run step].
    unfold onStreamData. cbn [streams disk].
    rewrite stream_read_unchanged, Hdelta by assumption.
    now rewrite firstn_nil.
  - destruct delta as [|b delta'].
    + rewrite chunksOf_nil. cbn [length repeat run step].
      unfold onStreamData. cbn [streams disk].
      rewrite stream_read_unchanged, Hdelta by assumption.
      now rewrite firstn_nil.
    + rewrite chunksOf_cons by assumption.
      cbn [length map].
      remember (S (length (chunksOf hwm (skipn hwm (b :: delta'))))) as m eqn:Hm.
      cbn [repeat run step].
      unfold onStreamData at 1. cbn [streams disk clients lastSize].
      rewrite stream_read_unchanged, Hdelta by assumption.
      assert (Hlen : length (firstn hwm (b :: delta'))
                     = Nat.min hwm (length (b :: delta')))
        by apply length_firstn.
      destruct (firstn hwm (b :: delta')) as [|b0 buf] eqn:Hbuf.
      { destruct hwm; [lia|discriminate Hbuf]. }
      rewrite <- Hbuf in *. subst m.
      cbn [broadcastAll fold_left].
      fold (broadcastAll (map toString (chunksOf hwm (skipn hwm (b :: delta'))))
              (broadcast (toString (firstn hwm (b :: delta'))) cs)).
      apply IH.
      * rewrite length_skipn. cbn [length] in Hk |- *. lia.
      * rewrite Hlen. rewrite <- Hdelta, length_skipn. lia.
      * rewrite Nat.add_comm, <- skipn_skipn, Hdelta, Hlen.
        apply skipn_min_length.
Qed.

(** A growth seen by the listener of the watch and read before the file
    changes again. *)
Lemma growth_delivered (w : World) (file : bytes) :
  disk w = Some file -> streams w = [] -> lastSize w < length file ->
  run hwm rev (notifyAndRead (S (length (chunksOf hwm (skipn (lastSize w) file))))) w
  = Running {| disk := Some file; lastSize := length file; streams := [];
               clients := map (sendAllIfOpen
                                 (map toString (chunksOf hwm (skipn (lastSize w) file))))
                              (clients w) |}.
Proof.
  intros Hd Hs Hlt. unfold notifyAndRead.
  remember (S (length (chunksOf hwm (skipn (lastSize w) file)))) as k eqn:Hk.
  cbn [run step]. rewrite (onWatch_change_present rev w file Hd).
  unfold onStats. apply Nat.ltb_lt in Hlt. rewrite Hlt, Hd, Hs. cbn [app].
  subst k. rewrite <- broadcastAll_sendAll.
  apply Nat.ltb_lt in Hlt.
  apply (drain_stream file (length file) [] (length (skipn (lastSize w) file)));
    [apply le_n|lia|reflexivity].
Qed.

End Delivery.

(** One growth of 65537 bytes, fully read: the socket holds its initial
    message and two growth messages, of 65536 bytes and of 1 byte. *)
Lemma bigGrowth_message_sizes :
  match run HIGH_WATER_MARK Chunked
            (Connection 1 :: FsAppend bigGrowth :: notifyAndRead 3) (startup []) with
  | Running w =>
      streams w = []
      /\ map (fun msg => N.of_nat (String.length msg)) (sentTo 1 w) = [0; 65536; 1]%N
  | Crashed => False
  end.
Proof. vm_compute. split; reflexivity. Qed.

(** C4, as stated, fails: the listener of ['data'] broadcasts every chunk the
    stream emits, and a stream emits at most 64 KiB at once, so a growth of
    65537 bytes reaches the socket as two messages. *)
Lemma large_growth_is_split_across_messages :
  ~ (forall (rev : Revision) (file growth : bytes) (k : nat),
        growth <> [] -> 2 <= k ->
        exists (w : World) (initial : string),
          run HIGH_WATER_MARK rev
              (Connection 1 :: FsAppend growth :: notifyAndRead k) (startup file)
          = Running w
          /\ sentTo 1 w = [initial; toString growth]).
Proof.
  intros H.
  destruct (H Chunked [] bigGrowth 3) as [w [initial [Hrun Hsent]]].
  - unfold bigGrowth. cbn [repeat]. discriminate.
  - lia.
  - pose proof bigGrowth_message_sizes as Hsizes.
    rewrite Hrun in Hsizes. destruct Hsizes as [_ Hsizes].
    rewrite Hsent in Hsizes.
    apply (f_equal (@length N)) in Hsizes.
    discriminate Hsizes.
Qed.

(** C4, amended. A growth seen by the listener of the watch and read before
    the file changes again reaches every open socket as the chunks of the
    stream, in file order and with nothing else in between: pieces of at
    most [highWaterMark] bytes (65536 in the server) whose concatenation is
    exactly the new bytes, hence exactly one message when the growth is at
    most [highWaterMark] bytes.  Sockets that are not open get nothing. *)
Theorem growth_is_delivered_in_stream_chunks
        (highWaterMark : nat) (rev : Revision) (w : World) (file : bytes) :
  0 < highWaterMark ->
  disk w = Some file -> streams w = [] -> lastSize w < length file ->
  run highWaterMark rev
      (notifyAndRead (S (length (chunksOf highWaterMark (skipn (lastSize w) file))))) w
  = Running {| disk := Some file; lastSize := length file; streams := [];
               clients :=
                 map (sendAllIfOpen
                        (map toString (chunksOf highWaterMark (skipn (lastSize w) file))))
                     (clients w) |}
  /\ concat (chunksOf highWaterMark (skipn (lastSize w) file)) = skipn (lastSize w) file
  /\ Forall (fun chunk => 0 < length chunk <= highWaterMark)
            (chunksOf highWaterMark (skipn (lastSize w) file))
  /\ (length file - lastSize w <= highWaterMark ->
      chunksOf highWaterMark (skipn (lastSize w) file) = [skipn (lastSize w) file]).
Proof.
  intros Hhwm Hd Hs Hlt. repeat split.
  - now apply growth_delivered.
  - now apply chunksOf_concat.
  - now apply chunksOf_bounds.
  - intros Hsmall. apply chunksOf_single. rewrite length_skipn. lia.
Qed.

Lemma growth_is_delivered_in_stream_chunks_witness :
  run HIGH_WATER_MARK Chunked
      (notifyAndRead
         (S (length (chunksOf HIGH_WATER_MARK
                       (skipn (lastSize grownLogWithViewer) (bytesOf "abcde"))))))
      grownLogWithViewer
  = Running {| disk := Some (bytesOf "abcde"); lastSize := length (bytesOf "abcde");
               streams := [];
               clients :=
                 map (sendAllIfOpen
                        (map toString
                             (chunksOf HIGH_WATER_MARK
                                (skipn (lastSize grownLogWithViewer) (bytesOf "abcde")))))
                     (clients grownLogWithViewer) |}
  /\ chunksOf HIGH_WATER_MARK (skipn (lastSize grownLogWithViewer) (bytesOf "abcde"))
     = [skipn (lastSize grownLogWithViewer) (bytesOf "abcde")].
Proof.
  destruct (growth_is_delivered_in_stream_chunks HIGH_WATER_MARK Chunked
              grownLogWithViewer (bytesOf "abcde")) as [Hrun [_ [_ Hone]]].
  - unfold HIGH_WATER_MARK. lia.
  - reflexivity.
  - reflexivity.
  - simpl. lia.
  - split; [exact Hrun|]. apply Hone.
    change (3 <= 64 * 1024). lia.
Defined.

(** * No loss, no duplication *)

Lemma append_assoc (a b c : string) : ((a ++ b) ++ c = a ++ (b ++ c))%string.
Proof. induction a as [|x a IH]; simpl; [reflexivity|now rewrite IH]. Qed.

Lemma concatStrings_app (l1 l2 : list string) :
  concatStrings (l1 ++ l2) = (concatStrings l1 ++ concatStrings l2)%string.
Proof.
  induction l1 as [|x l1 IH]; simpl; [reflexivity|].
  now rewrite IH, append_assoc.
Qed.

Lemma concatStrings_toString (l : list bytes) :
  concatStrings (map toString l) = toString (concat l).
Proof.
  induction l as [|x l IH]; simpl; [reflexivity|].
  now rewrite IH, toString_app.
Qed.

Lemma sendAllIfOpen_app (msgs1 msgs2 : list string) (c : Client) :
  sendAllIfOpen msgs2 (sendAllIfOpen msgs1 c) = sendAllIfOpen (msgs1 ++ msgs2) c.
Proof.
  unfold sendAllIfOpen.
  destruct (isOpen (readyState c)) eqn:Ho; simpl; rewrite Ho; [|reflexivity].
  now rewrite <- app_assoc.
Qed.

Lemma run_app (hwm : nat) (rev : Revision) (es1 es2 : list Event) :
  forall w,
    run hwm rev (es1 ++ es2) w
    = match run hwm rev es1 w with
      | Running w' => run hwm rev es2 w'
      | Crashed => Crashed
      end.
Proof.
  induction es1 as [|e es1 IH]; intros w; simpl; [reflexivity|].
  destruct (step hwm rev e w); [apply IH|reflexivity].
Qed.

Lemma run_reads_idle (hwm : nat) (rev : Revision) (k : nat) (w : World) :
  streams w = [] -> run hwm rev (repeat StreamData k) w = Running w.
Proof.
  intros Hs. induction k as [|k IH]; simpl; [reflexivity|].
  unfold onStreamData. now rewrite Hs.
Qed.

Section QuietAppends.

Variable hwm : nat.
Variable rev : Revision.
Hypothesis hwm_positive : 0 < hwm.

Lemma settle_one (w : World) (file b : bytes) :
  disk w = Some file -> lastSize w = length file -> streams w = [] ->
  run hwm rev (appendAndSettle hwm b) w
  = Running {| disk := Some (file ++ b); lastSize := length (file ++ b); streams := [];
               clients := map (sendAllIfOpen (map toString (chunksOf hwm b))) (clients w) |}.
Proof.
  intros Hd Hl Hs. unfold appendAndSettle.
  remember (S (length (chunksOf hwm b))) as k eqn:Hk.
  cbn [run step]. rewrite Hd.
  rewrite (onWatch_change_present rev (setDisk (Some (file ++ b)) w) (file ++ b) eq_refl).
  destruct b as [|x b].
  - rewrite onStats_no_growth by (simpl; rewrite app_nil_r; lia).
    rewrite (onWatch_change_present rev (setDisk (Some (file ++ [])) w) (file ++ []) eq_refl).
    rewrite onStats_no_growth by (simpl; rewrite app_nil_r; lia).
    rewrite run_reads_idle by assumption.
    rewrite chunksOf_nil. simpl map at 1.
    rewrite (map_ext _ (fun c => c) sendAllIfOpen_nil), map_id.
    unfold setDisk. now rewrite Hs, app_nil_r, Hl.
  - assert (Hgrow : (lastSize w <? length (file ++ x :: b)) = true)
      by (apply Nat.ltb_lt; rewrite length_app; simpl; lia).
    unfold onStats at 1. cbn [setDisk lastSize disk streams clients].
    rewrite Hgrow, Hs. cbn [app].
    unfold onWatch, statSize. cbn [disk option_map].
    rewrite onStats_no_growth by (simpl; lia).
    subst k. rewrite <- broadcastAll_sendAll, Hl.
    apply (drain_stream hwm rev hwm_positive (file ++ x :: b) (length (file ++ x :: b)) []
             (length (x :: b))).
    + apply le_n.
    + rewrite length_app. lia.
    + rewrite skipn_app, skipn_all, Nat.sub_diag. reflexivity.
Qed.

(** Appends that are each notified (twice) and read before the next one
    arrive at every open socket once, complete and in order. *)
Lemma quiet_appends_delivered (appends : list bytes) :
  forall (w : World) (file : bytes),
    disk w = Some file -> lastSize w = length file -> streams w = [] ->
    run hwm rev (quietTrace hwm appends) w
    = Running {| disk := Some (file ++ concat appends);
                 lastSize := length (file ++ concat appends); streams := [];
                 clients := map (sendAllIfOpen (growthMessages hwm appends)) (clients w) |}.
Proof.
  induction appends as [|b appends IH]; intros w file Hd Hl Hs.
  - cbn [quietTrace flat_map run concat growthMessages].
    rewrite (map_ext _ (fun c => c) sendAllIfOpen_nil), map_id, app_nil_r.
    destruct w as [d l st cs]; simpl in *. now subst.
  - unfold quietTrace. cbn [flat_map]. rewrite run_app.
    rewrite (settle_one w file b Hd Hl Hs).
    fold (quietTrace hwm appends).
    rewrite (IH _ (file ++ b)) by reflexivity.
    cbn [clients concat growthMessages flat_map].
    rewrite map_map, <- app_assoc.
    f_equal. f_equal. apply map_ext. intros c. apply sendAllIfOpen_app.
Qed.

Lemma growthMessages_concat (appends : list bytes) :
  concatStrings (growthMessages hwm appends) = toString (concat appends).
Proof.
  induction appends as [|b appends IH]; [reflexivity|].
  cbn [growthMessages flat_map concat].
  fold (growthMessages hwm appends).
  rewrite concatStrings_app, IH, concatStrings_toString, toString_app.
  now rewrite chunksOf_concat.
Qed.

End QuietAppends.

(** C2. With an append that lands between the stat of a watch event and the
    read of the stream that event opened, the stream, whose upper bound
    [end: stats.size] is inclusive, reads one byte of the next growth, and
    the next stream reads that byte again.  After its initial message the
    socket is sent [abc] and [cd] for the appended bytes [abcd]: the byte
    [c] is delivered twice. *)
Theorem racing_append_is_delivered_twice (rev : Revision) :
  run HIGH_WATER_MARK rev raceTrace (startup [])
  = Running {| disk := Some (bytesOf "abcd"); lastSize := 4; streams := [];
               clients := [mkClient 1 OPEN [""; "abc"; "cd"]%string] |}
  /\ concatStrings [""; "abc"; "cd"]%string = "abccd"%string
  /\ toString (bytesOf "ab" ++ bytesOf "cd") = "abcd"%string.
Proof. destruct rev; vm_compute; repeat split; reflexivity. Qed.

(** * Splitting and joining lines *)

Lemma split_nl_cons (s : string) : exists h t, split_nl s = h :: t.
Proof.
  induction s as [|c s [h [t IH]]]; simpl; [eauto|].
  destruct (Ascii.eqb c LF); [eauto|]. rewrite IH. eauto.
Qed.

Lemma split_nl_length (s : string) : 1 <= length (split_nl s).
Proof. destruct (split_nl_cons s) as [h [t ->]]. simpl. lia. Qed.

Lemma split_nl_noLF (s : string) : Forall (fun l => noLF l = true) (split_nl s).
Proof.
  induction s as [|c s IH]; simpl; [repeat constructor|].
  destruct (Ascii.eqb c LF) eqn:Hc; [constructor; [reflexivity|exact IH]|].
  destruct (split_nl s) as [|h t]; [repeat constructor; simpl; now rewrite Hc|].
  inversion IH as [|? ? Hh Ht]; subst.
  constructor; [simpl; now rewrite Hc, Hh|exact Ht].
Qed.

Lemma join_nl_cons (x : string) (l : list string) :
  l <> [] -> join_nl (x :: l) = (x ++ nl ++ join_nl l)%string.
Proof. destruct l; [congruence|reflexivity]. Qed.

(** [s.split('\n').join('\n')] is [s]. *)
Lemma join_split (s : string) : join_nl (split_nl s) = s.
Proof.
  induction s as [|c s IH]; [reflexivity|]. simpl.
  destruct (Ascii.eqb_spec c LF) as [->|Hc].
  - destruct (split_nl_cons s) as [h [t Hs]].
    rewrite join_nl_cons by (rewrite Hs; discriminate).
    now rewrite IH.
  - destruct (split_nl_cons s) as [h [t Hs]]. rewrite Hs in *.
    destruct t as [|h' t]; simpl in *; now rewrite <- IH.
Qed.

Lemma split_nl_noLF_id (s : string) : noLF s = true -> split_nl s = [s].
Proof.
  induction s as [|c s IH]; [reflexivity|]. simpl.
  destruct (Ascii.eqb c LF); simpl; [discriminate|].
  intros H. now rewrite (IH H).
Qed.

Lemma split_nl_app_nl (x rest : string) :
  noLF x = true -> split_nl (x ++ nl ++ rest) = x :: split_nl rest.
Proof.
  unfold nl. induction x as [|c x IH]; simpl in *; [reflexivity|].
  destruct (Ascii.eqb c LF); simpl; [discriminate|].
  intros H. now rewrite (IH H).
Qed.

(** [ls.join('\n').split('\n')] is [ls], for a non-empty array of strings
    without line feeds. *)
Lemma split_join (ls : list string) :
  ls <> [] -> Forall (fun l => noLF l = true) ls -> split_nl (join_nl ls) = ls.
Proof.
  induction ls as [|x ls IH]; [congruence|]. intros _ Hall.
  inversion Hall as [|? ? Hx Hls]; subst.
  destruct ls as [|y ls]; [now apply split_nl_noLF_id|].
  rewrite join_nl_cons by discriminate.
  rewrite split_nl_app_nl by assumption.
  now rewrite IH by (discriminate || assumption).
Qed.

Lemma slice_suffix {A : Type} (start : Z) (l : list A) :
  exists before, l = before ++ slice start l.
Proof.
  unfold slice. eexists. symmetry. apply firstn_skipn.
Qed.

Lemma slice_neg_length {A : Type} (n : nat) (l : list A) :
  0 < n -> length (slice (- Z.of_nat n) l) = Nat.min n (length l).
Proof.
  intros Hn. rewrite slice_neg_last_n by assumption.
  unfold last_n. rewrite length_skipn. lia.
Qed.

Lemma slice_Forall {A : Type} (P : A -> Prop) (start : Z) (l : list A) :
  Forall P l -> Forall P (slice start l).
Proof.
  intros H. destruct (slice_suffix start l) as [before Hl].
  rewrite Hl in H. now apply Forall_app in H.
Qed.

(** * More on the loop of readLastLines *)

Section LoopInvariants.

Variable bufferLength : nat.

(** The rule of the [while] loop: what holds at the start and is kept by
    the body holds at the end, where the condition is false. *)
Lemma while_loop_rule (P : LoopState -> Prop) (file : bytes) (lineCount : nat) :
  (forall st, P st -> loop_cond lineCount st = true ->
              P (loop_body bufferLength file st)) ->
  forall fuel st st',
    P st -> while_loop bufferLength fuel file lineCount st = Some st' ->
    P st' /\ loop_cond lineCount st' = false.
Proof.
  intros Hbody. induction fuel as [|fuel IH]; intros st st' HP Hrun; simpl in Hrun;
    destruct (loop_cond lineCount st) eqn:Hc; try discriminate;
    try (injection Hrun as <-; now split).
  apply (IH (loop_body bufferLength file st)); auto.
Qed.

Lemma while_loop_more_fuel (file : bytes) (lineCount : nat) :
  forall fuel fuel' st st',
    fuel <= fuel' ->
    while_loop bufferLength fuel file lineCount st = Some st' ->
    while_loop bufferLength fuel' file lineCount st = Some st'.
Proof.
  induction fuel as [|fuel IH]; intros fuel' st st' Hle Hrun; simpl in Hrun.
  - destruct (loop_cond lineCount st) eqn:Hc; [discriminate|].
    destruct fuel'; simpl; now rewrite Hc.
  - destruct fuel' as [|fuel']; [lia|]. simpl.
    destruct (loop_cond lineCount st); [|assumption].
    apply (IH fuel'); [lia|assumption].
Qed.

(** Every iteration adds at least one entry to [lines], so the loop runs at
    most [lineCount + 1 - lines.length] times, and each time it moves
    [position] back by at most [bufferLength]. *)
Lemma while_loop_few_iterations (file : bytes) (lineCount : nat) :
  forall fuel st,
    S lineCount - length (lines st) <= fuel ->
    exists st',
      while_loop bufferLength fuel file lineCount st = Some st'
      /\ position st' <= position st
      /\ position st - position st'
         <= bufferLength * (S lineCount - length (lines st)).
Proof.
  induction fuel as [|fuel IH]; intros st Hfuel; cbn [while_loop];
    destruct (loop_cond lineCount st) eqn:Hc;
    try (exists st; repeat split;
         [lia|rewrite Nat.sub_diag; apply Nat.le_0_l]).
  - unfold loop_cond in Hc. apply andb_true_iff in Hc. destruct Hc as [_ Hc].
    apply Nat.leb_le in Hc. lia.
  - unfold loop_cond in Hc. apply andb_true_iff in Hc. destruct Hc as [_ Hc].
    apply Nat.leb_le in Hc.
    assert (Hgrow : S (length (lines st))
                    <= length (lines (loop_body bufferLength file st))).
    { unfold loop_body. cbn [lines]. rewrite length_app.
      pose proof (split_nl_length
                    (toString (readSync file (readSize bufferLength st)
                                 (position st - readSize bufferLength st)))).
      lia. }
    assert (Hback : position (loop_body bufferLength file st) <= position st
                    /\ position st - position (loop_body bufferLength file st)
                       <= bufferLength).
    { unfold loop_body, readSize. cbn [position]. lia. }
    destruct (IH (loop_body bufferLength file st)) as [st' [Hrun [Hle Hbytes]]];
      [lia|].
    destruct Hback as [Hb1 Hb2].
    exists st'. repeat split; [assumption|lia|nia].
Qed.

End LoopInvariants.

Lemma BUFFER_LENGTH_positive : 0 < BUFFER_LENGTH.
Proof. unfold BUFFER_LENGTH. lia. Qed.

(** The loop on a file that fits in the buffer: nothing is read from an
    empty file, and one chunk holds a non-empty one. *)
Lemma run_loop_single_chunk (bufferLength : nat) (file : bytes) (lineCount : nat) :
  length file <= bufferLength ->
  run_loop bufferLength (length file) file lineCount
  = Some {| position := 0;
            lines := match file with
                     | [] => []
                     | _ => split_nl (toString file)
                     end |}.
Proof.
  intros Hfit. unfold run_loop.
  destruct file as [|b file]; [reflexivity|].
  remember (b :: file) as f eqn:Hf.
  assert (Hlen : length f = S (length file)) by (subst f; reflexivity).
  rewrite Hlen. cbn [while_loop].
  unfold loop_cond at 1. cbn [position lines length].
  rewrite <- Hlen.
  replace (0 <? length f) with true by (symmetry; apply Nat.ltb_lt; lia).
  cbn [andb Nat.leb].
  unfold loop_body, readSize. cbn [position lines].
  replace (Nat.min (length f) bufferLength) with (length f) by lia.
  rewrite Nat.sub_diag, readSync_all, app_nil_r.
  subst f.
  destruct (length file); reflexivity.
Qed.

(** X1. On a file of at most 1024 bytes and for a positive line count,
    [readLastLines] resolves to the last [lineCount] non-empty lines of the
    file (all of them when there are fewer), oldest first. *)
Theorem readLastLines_small_file (file : bytes) (lineCount : nat) :
  length file <= 1024 -> 0 < lineCount ->
  readLastLines (Some file) lineCount = Resolved (lastLines_spec file lineCount).
Proof.
  intros Hfit Hn.
  apply (readLastLinesWith_single_chunk BUFFER_LENGTH BUFFER_LENGTH_positive
           file lineCount Hfit Hn).
Qed.

Lemma readLastLines_small_file_witness :
  readLastLines (Some threeLines) 2 = Resolved (lastLines_spec threeLines 2).
Proof.
  apply (readLastLines_small_file threeLines 2); simpl; lia.
Defined.

Lemma readLastLinesWith_shape (file : bytes) (lineCount : nat) (ls : list string) :
  0 < lineCount ->
  readLastLines (Some file) lineCount = Resolved ls ->
  length ls <= lineCount
  /\ Forall (fun l => l <> EmptyString /\ noLF l = true) ls.
Proof.
  intros Hn. unfold readLastLines, readLastLinesWith, run_loop.
  destruct (while_loop BUFFER_LENGTH (length file) file lineCount
              {| position := length file; lines := [] |}) as [st|] eqn:Hrun;
    [|discriminate].
  intros H. injection H as <-.
  destruct (while_loop_rule BUFFER_LENGTH
              (fun st => Forall (fun l => noLF l = true) (lines st))
              file lineCount) with (3 := Hrun) as [Hinv _].
  - intros st0 H0 _. unfold loop_body. cbn [lines].
    apply Forall_app. split; [apply split_nl_noLF|exact H0].
  - constructor.
  - unfold trim_result. split.
    + rewrite slice_neg_length by assumption. lia.
    + apply slice_Forall. apply Forall_forall. intros l Hl.
      apply filter_In in Hl. destruct Hl as [Hin Ht].
      split; [intros ->; discriminate Ht|].
      rewrite Forall_forall in Hinv. now apply Hinv.
Qed.

(** X2. Whatever the file, for a positive line count [readLastLines] never
    returns more than [lineCount] entries, never an empty string and never a
    string with a line feed in it. *)
Theorem readLastLines_result_shape (file : bytes) (lineCount : nat) (ls : list string) :
  0 < lineCount ->
  readLastLines (Some file) lineCount = Resolved ls ->
  length ls <= lineCount
  /\ Forall (fun l => l <> EmptyString /\ noLF l = true) ls.
Proof. apply readLastLinesWith_shape. Qed.

Lemma readLastLines_result_shape_witness :
  length ["b"; "c"]%string <= 2
  /\ Forall (fun l => l <> EmptyString /\ noLF l = true) ["b"; "c"]%string.
Proof.
  apply (readLastLines_result_shape threeLines 2 ["b"; "c"]%string).
  - lia.
  - reflexivity.
Defined.

(** X3. [readLastLines] reads at most [lineCount + 1] chunks, hence at most
    [1024 * (lineCount + 1)] bytes from the end of the file, whatever the
    size of the file: the state in which the loop ends is reached within
    [lineCount + 1] iterations. *)
Theorem readLastLines_reads_few_chunks (file : bytes) (lineCount : nat) :
  exists st : LoopState,
    run_loop BUFFER_LENGTH (S lineCount) file lineCount = Some st
    /\ readLastLines (Some file) lineCount = Resolved (trim_result lineCount (lines st))
    /\ position st <= length file
    /\ length file - position st <= 1024 * (S lineCount).
Proof.
  destruct (while_loop_few_iterations BUFFER_LENGTH file lineCount (S lineCount)
              {| position := length file; lines := [] |})
    as [st [Hrun [Hle Hbytes]]]; [simpl; lia|].
  destruct (while_loop_enough BUFFER_LENGTH BUFFER_LENGTH_positive file lineCount
              (length file) {| position := length file; lines := [] |} (le_n _))
    as [st2 Hrun2].
  assert (Hsame : st2 = st).
  { pose proof (while_loop_more_fuel BUFFER_LENGTH file lineCount
                  (S lineCount) (Nat.max (S lineCount) (length file)) _ _
                  (Nat.le_max_l _ _) Hrun) as H1.
    pose proof (while_loop_more_fuel BUFFER_LENGTH file lineCount
                  (length file) (Nat.max (S lineCount) (length file)) _ _
                  (Nat.le_max_r _ _) Hrun2) as H2.
    congruence. }
  subst st2. exists st. cbn [position lines length] in Hle, Hbytes.
  rewrite Nat.sub_0_r in Hbytes.
  split; [exact Hrun|]. split; [|split; [exact Hle|exact Hbytes]].
  unfold readLastLines, readLastLinesWith, run_loop. now rewrite Hrun2.
Qed.

(** X4. With a line count of 0 nothing is trimmed: [slice(-0)] is
    [slice(0)], and on a file of at most 1024 bytes [readLastLines] resolves
    to all the non-empty lines of the file. *)
Theorem readLastLines_zero_count_small_file (file : bytes) :
  length file <= 1024 ->
  readLastLines (Some file) 0 = Resolved (file_lines file).
Proof.
  intros Hfit. unfold readLastLines, readLastLinesWith.
  rewrite (run_loop_single_chunk BUFFER_LENGTH file 0 Hfit).
  cbn [lines]. unfold trim_result. rewrite slice_neg_zero.
  destruct file; reflexivity.
Qed.

Lemma readLastLines_zero_count_small_file_witness :
  readLastLines (Some threeLines) 0 = Resolved (file_lines threeLines).
Proof.
  apply (readLastLines_zero_count_small_file threeLines). simpl. lia.
Defined.

(** * The initial message *)

Lemma last_n_all {A : Type} (n : nat) (l : list A) :
  length l <= n -> last_n n l = l.
Proof.
  intros H. unfold last_n. now replace (length l - n) with 0 by lia.
Qed.

Lemma append_empty_r (s : string) : (s ++ "")%string = s.
Proof. induction s as [|c s IH]; simpl; [reflexivity|now rewrite IH]. Qed.

Lemma join_nl_suffix (l1 l2 : list string) :
  exists before, join_nl (l1 ++ l2) = (before ++ join_nl l2)%string.
Proof.
  induction l1 as [|x l1 [before IH]]; [now exists EmptyString|].
  destruct (l1 ++ l2) as [|y rest] eqn:Hrest.
  - apply app_eq_nil in Hrest. destruct Hrest as [-> ->].
    exists x. simpl. now rewrite append_empty_r.
  - exists (x ++ nl ++ before)%string.
    cbn [app]. rewrite Hrest, join_nl_cons by discriminate.
    now rewrite IH, !append_assoc.
Qed.

(** The lines the [Whole] revision sends: the last ten of the trimmed text. *)
Lemma whole_lines_shape (data : bytes) :
  let ls := slice (-10) (split_nl (trim (toString data))) in
  1 <= length ls <= 10 /\ Forall (fun l => noLF l = true) ls.
Proof.
  cbn zeta. change (-10)%Z with (- Z.of_nat 10)%Z.
  rewrite slice_neg_length by lia.
  pose proof (split_nl_length (trim (toString data))).
  split; [lia|]. apply slice_Forall, split_nl_noLF.
Qed.

(** X5. In the [Whole] revision, a file whose trimmed text has at most ten
    lines is sent whole, trimmed, to the connecting socket: splitting on
    line feeds and joining again gives the text back. *)
Theorem whole_initial_message_short_file (data : bytes) :
  length (split_nl (trim (toString data))) <= 10 ->
  initialMessage Whole (Some data) = trim (toString data).
Proof.
  intros Hshort. cbn [initialMessage].
  change (-10)%Z with (- Z.of_nat 10)%Z.
  rewrite slice_neg_last_n by lia.
  rewrite last_n_all by assumption.
  apply join_split.
Qed.

Lemma whole_initial_message_short_file_witness :
  initialMessage Whole (Some paddedLog) = trim (toString paddedLog).
Proof.
  apply (whole_initial_message_short_file paddedLog). simpl. lia.
Defined.

(** X6. Whatever the file and in both revisions, the initial message has at
    most ten lines. *)
Theorem initial_message_at_most_ten_lines (rev : Revision) (file : bytes) :
  length (split_nl (initialMessage rev (Some file))) <= 10.
Proof.
  destruct rev; cbn [initialMessage].
  - destruct (readLastLinesWith_resolves BUFFER_LENGTH BUFFER_LENGTH_positive file 10)
      as [ls Hls].
    fold readLastLines in Hls. rewrite Hls.
    destruct (readLastLinesWith_shape file 10 ls) as [Hlen Hall];
      [lia|assumption|].
    destruct ls as [|l ls]; [simpl; lia|].
    rewrite split_join; [assumption|discriminate|].
    eapply Forall_impl; [|exact Hall]. now intros a [_ Ha].
  - destruct (whole_lines_shape file) as [[Hlow Hhigh] Hall].
    rewrite split_join; [assumption| |assumption].
    intros Hnil. rewrite Hnil in Hlow. simpl in Hlow. lia.
Qed.

(** X7. In the [Whole] revision the initial message is always the end of the
    trimmed text of the file: nothing is added, reordered or dropped inside
    the part that is sent. *)
Theorem whole_initial_message_is_suffix (data : bytes) :
  exists before : string,
    trim (toString data) = (before ++ initialMessage Whole (Some data))%string.
Proof.
  cbn [initialMessage].
  destruct (slice_suffix (-10) (split_nl (trim (toString data)))) as [l1 Hl].
  destruct (join_nl_suffix l1 (slice (-10) (split_nl (trim (toString data)))))
    as [before Hb].
  exists before. rewrite <- Hb, <- Hl. symmetry. apply join_split.
Qed.

(** X8. In the [Chunked] revision, when a socket connects while the log has
    at most 1024 bytes, the server keeps running and sends one message, to
    that socket only: the last ten non-empty lines of the log joined by
    line feeds.  The sockets already registered, the offset and the streams
    are untouched. *)
Theorem connection_sends_last_ten_lines
        (highWaterMark : nat) (ws : nat) (w : World) (file : bytes) :
  disk w = Some file -> length file <= 1024 ->
  step highWaterMark Chunked (Connection ws) w
  = Running {| disk := Some file; lastSize := lastSize w; streams := streams w;
               clients := clients w
                          ++ [mkClient ws OPEN [join_nl (lastLines_spec file 10)]] |}.
Proof.
  intros Hd Hfit. cbn [step]. unfold onConnection. rewrite Hd.
  cbn [initialMessage].
  unfold readLastLines.
  rewrite (readLastLinesWith_single_chunk BUFFER_LENGTH BUFFER_LENGTH_positive
             file 10 Hfit) by lia.
  reflexivity.
Qed.

Lemma connection_sends_last_ten_lines_witness :
  step HIGH_WATER_MARK Chunked (Connection 4) (startup threeLines)
  = Running {| disk := Some threeLines; lastSize := lastSize (startup threeLines);
               streams := streams (startup threeLines);
               clients := clients (startup threeLines)
                          ++ [mkClient 4 OPEN [join_nl (lastLines_spec threeLines 10)]] |}.
Proof.
  apply (connection_sends_last_ten_lines HIGH_WATER_MARK 4 (startup threeLines) threeLines).
  - reflexivity.
  - simpl. lia.
Defined.

(** * The listener of the watch, over sequences of events *)

Lemma onStats_disk (size : nat) (w : World) : disk (onStats size w) = disk w.
Proof. unfold onStats. now destruct (lastSize w <? size). Qed.

Lemma onStats_caught_up (size : nat) (w : World) : size <= lastSize (onStats size w).
Proof.
  unfold onStats. destruct (Nat.ltb_spec (lastSize w) size); simpl; lia.
Qed.

Lemma onWatch_stable (rev : Revision) (w w1 : World) :
  onWatch rev change w = Running w1 -> onWatch rev change w1 = Running w1.
Proof.
  unfold onWatch, statSize. destruct (disk w) as [file|] eqn:Hd; cbn [option_map].
  - intros H. injection H as <-.
    rewrite onStats_disk, Hd. cbn [option_map].
    now rewrite onStats_no_growth by apply onStats_caught_up.
  - destruct rev; [discriminate|]. intros H. injection H as <-.
    now rewrite Hd.
Qed.

(** X9. Any number of ['change'] notifications in a row, with no change of
    the file in between, do what the first one does: the later ones open no
    stream and leave [lastSize] alone. *)
Theorem repeated_notifications_are_idle
        (highWaterMark : nat) (rev : Revision) (k : nat) (w : World) :
  run highWaterMark rev (repeat (Watch change) (S k)) w
  = run highWaterMark rev [Watch change] w.
Proof.
  cbn [repeat run step].
  destruct (onWatch rev change w) as [w1|] eqn:Hw; [|reflexivity].
  apply onWatch_stable in Hw.
  induction k as [|k IH]; [reflexivity|].
  cbn [repeat run step]. now rewrite Hw.
Qed.

Lemma StronglySorted_snoc {A : Type} (R : A -> A -> Prop) (l : list A) (a : A) :
  StronglySorted R l -> Forall (fun x => R x a) l -> StronglySorted R (l ++ [a]).
Proof.
  induction 1 as [|x l Hs IH Hx]; intros Hall; simpl.
  - repeat constructor.
  - inversion Hall as [|? ? Hxa Hla]; subst.
    constructor; [now apply IH|].
    apply Forall_app. split; [assumption|now constructor].
Qed.

Lemma firstn_length_firstn {A : Type} (n : nat) (l : list A) :
  firstn (length (firstn n l)) l = firstn n l.
Proof.
  rewrite length_firstn.
  destruct (Nat.le_gt_cases n (length l)) as [H|H].
  - now rewrite Nat.min_l by assumption.
  - rewrite Nat.min_r by lia. now rewrite !firstn_all2 by lia.
Qed.

(** What one read of a stream gives: a non-empty piece of the file as it
    is, within the buffer size and within the inclusive bounds. *)
Lemma stream_read_data (hwm : nat) (file : bytes) (s s' : ReadStream) (buf : bytes) :
  stream_read hwm file s = Data buf s' ->
  buf <> []
  /\ length buf <= hwm
  /\ length buf <= endPos s + 1 - pos s
  /\ buf = readSync file (length buf) (pos s)
  /\ s' = {| pos := pos s + length buf; endPos := endPos s |}.
Proof.
  unfold stream_read.
  destruct (readSync file (Nat.min (endPos s + 1 - pos s) hwm) (pos s))
    as [|b bs] eqn:Hr; [discriminate|].
  intros H. injection H as <- <-.
  unfold readSync in *. rewrite <- Hr.
  set (n := Nat.min (endPos s + 1 - pos s) hwm) in *.
  assert (Hlen : length (firstn n (skipn (pos s) file)) <= n)
    by (rewrite length_firstn; lia).
  split; [rewrite Hr; discriminate|].
  split; [subst n; lia|].
  split; [subst n; lia|].
  split; [now rewrite firstn_length_firstn|now rewrite Hr].
Qed.

Lemma step_streamsInOrder (hwm : nat) (rev : Revision) (e : Event) (w w' : World) :
  streamsInOrder w -> step hwm rev e w = Running w' -> streamsInOrder w'.
Proof.
  intros [Hall Hsorted]. destruct e; cbn [step]; intros H;
    try (injection H as <-; split; assumption).
  - (* Watch *)
    unfold onWatch in H. destruct eventType; [|injection H as <-; now split].
    destruct (statSize (disk w)) as [size|].
    2:{ destruct rev; [discriminate|]. injection H as <-. now split. }
    injection H as <-. unfold onStats.
    destruct (Nat.ltb_spec (lastSize w) size) as [Hlt|Hge]; [|now split].
    split; cbn [streams lastSize].
    + apply Forall_app. split.
      * eapply Forall_impl; [|exact Hall]. cbn beta. intros s [H1 H2]. lia.
      * repeat constructor; cbn [pos endPos]; lia.
    + apply StronglySorted_snoc; [assumption|].
      eapply Forall_impl; [|exact Hall]. cbn beta. intros s [_ H2]. exact H2.
  - (* StreamData *)
    unfold onStreamData in H.
    destruct (streams w) as [|s rest] eqn:Hs; [injection H as <-; split; now rewrite Hs|].
    destruct (disk w) as [file|]; [|discriminate].
    inversion Hall as [|? ? [Hs1 Hs2] Hrest]; subst.
    inversion Hsorted as [|? ? Hsr Hhead]; subst.
    destruct (stream_read hwm file s) as [buf s'|] eqn:Hread;
      injection H as <-; split; cbn [streams lastSize]; try assumption.
    + destruct (stream_read_data _ _ _ _ _ Hread) as [_ [_ [Hb [_ ->]]]].
      constructor; [cbn [pos endPos]; lia|assumption].
    + destruct (stream_read_data _ _ _ _ _ Hread) as [_ [_ [_ [_ ->]]]].
      constructor; [assumption|exact Hhead].
Qed.

(** X10. In every state the server reaches from start-up, the open streams
    are in order: each stands at most one byte past its upper bound, ends at
    or below [lastSize], and starts at or after the upper bound of every
    stream opened before it.  Two streams can therefore overlap in one byte
    offset only, the inclusive upper bound of the earlier one. *)
Theorem streams_stay_in_order
        (highWaterMark : nat) (rev : Revision) (file : bytes) (es : list Event) (w : World) :
  run highWaterMark rev es (startup file) = Running w -> streamsInOrder w.
Proof.
  assert (Hgen : forall es w0 w1,
             streamsInOrder w0 -> run highWaterMark rev es w0 = Running w1 ->
             streamsInOrder w1).
  { clear. induction es as [|e es IH]; intros w0 w1 H0 Hrun; cbn [run] in Hrun.
    - now injection Hrun as <-.
    - destruct (step highWaterMark rev e w0) as [w2|] eqn:He; [|discriminate].
      apply (IH w2 w1); [|assumption].
      now apply (step_streamsInOrder highWaterMark rev e w0). }
  apply Hgen. split; constructor.
Qed.

Lemma streams_stay_in_order_witness :
  streamsInOrder {| disk := Some (bytesOf "abcd"); lastSize := 4;
                    streams := [{| pos := 3; endPos := 2 |}; {| pos := 2; endPos := 4 |}];
                    clients := [mkClient 1 OPEN [""; "abc"]%string] |}.
Proof.
  apply (streams_stay_in_order HIGH_WATER_MARK Chunked []
           [Connection 1; FsAppend (bytesOf "ab"); Watch change;
            FsAppend (bytesOf "cd"); StreamData; Watch change]).
  vm_compute. reflexivity.
Defined.

(** X11. A growth message is never empty and never made up: when the
    listener of ['data'] broadcasts, the text is that of a non-empty piece of
    the file as it is at the time of the read, starting where the stream
    stands, of at most [highWaterMark] bytes and not beyond one byte past
    the stream's upper bound; otherwise the stream has ended and no socket
    is sent anything. *)
Theorem stream_data_sends_file_bytes
        (highWaterMark : nat) (w w' : World) (file : bytes)
        (s : ReadStream) (rest : list ReadStream) :
  disk w = Some file -> streams w = s :: rest ->
  onStreamData highWaterMark w = Running w' ->
  (streams w' = rest /\ clients w' = clients w)
  \/ exists chunk : bytes,
       chunk <> []
       /\ length chunk <= highWaterMark
       /\ pos s + length chunk <= endPos s + 1
       /\ chunk = readSync file (length chunk) (pos s)
       /\ streams w' = {| pos := pos s + length chunk; endPos := endPos s |} :: rest
       /\ clients w' = broadcast (toString chunk) (clients w).
Proof.
  intros Hd Hs. unfold onStreamData. rewrite Hs, Hd.
  destruct (stream_read highWaterMark file s) as [chunk s'|] eqn:Hread;
    intros H; injection H as <-; [right|now left].
  destruct (stream_read_data _ _ _ _ _ Hread) as [H1 [H2 [H3 [H4 ->]]]].
  exists chunk. cbn [streams clients].
  repeat split; try assumption.
  assert (Hchunk : 0 < length chunk) by (destruct chunk; [congruence|simpl; lia]).
  lia.
Qed.

Lemma stream_data_sends_file_bytes_witness :
  (streams mixedRegistryAfterRead = [] /\ clients mixedRegistryAfterRead = clients mixedRegistry)
  \/ exists chunk : bytes,
       chunk <> []
       /\ length chunk <= HIGH_WATER_MARK
       /\ 0 + length chunk <= 5 + 1
       /\ chunk = readSync (bytesOf "hello") (length chunk) 0
       /\ streams mixedRegistryAfterRead = [{| pos := 0 + length chunk; endPos := 5 |}]
       /\ clients mixedRegistryAfterRead = broadcast (toString chunk) (clients mixedRegistry).
Proof.
  apply (stream_data_sends_file_bytes HIGH_WATER_MARK mixedRegistry mixedRegistryAfterRead
           (bytesOf "hello") {| pos := 0; endPos := 5 |} []); reflexivity.
Defined.

Lemma step_serverEvent_clients (hwm : nat) (rev : Revision) (e : Event) (w w' : World) :
  serverEvent e = true -> step hwm rev e w = Running w' ->
  clients w' = clients w \/ exists msg, clients w' = broadcast msg (clients w).
Proof.
  destruct e; cbn [serverEvent step]; intros He H; try discriminate He;
    try (injection H as <-; now left).
  - unfold onWatch in H. destruct eventType; [|injection H as <-; now left].
    destruct (statSize (disk w)) as [size|].
    + injection H as <-. left. unfold onStats.
      now destruct (lastSize w <? size).
    + destruct rev; [discriminate|]. injection H as <-. now left.
  - unfold onStreamData in H.
    destruct (streams w) as [|s rest]; [injection H as <-; now left|].
    destruct (disk w) as [file|]; [|discriminate].
    destruct (stream_read hwm file s) as [chunk s'|];
      injection H as <-; [right; now eexists|now left].
Qed.

(** X12. Over any sequence of file, watch and stream events, during which
    no socket connects, changes state or leaves, the registry keeps its
    sockets and every open socket is sent the same messages in the same
    order; the sockets that are not open are sent nothing. *)
Theorem open_sockets_receive_the_same
        (highWaterMark : nat) (rev : Revision) (es : list Event) (w w' : World) :
  forallb serverEvent es = true ->
  run highWaterMark rev es w = Running w' ->
  exists msgs : list string, clients w' = map (sendAllIfOpen msgs) (clients w).
Proof.
  revert w. induction es as [|e es IH]; intros w Hall Hrun; cbn [run] in Hrun.
  - injection Hrun as <-. exists []. 
    rewrite (map_ext _ (fun c => c) sendAllIfOpen_nil). now rewrite map_id.
  - cbn [forallb] in Hall. apply andb_true_iff in Hall. destruct Hall as [He Hes].
    destruct (step highWaterMark rev e w) as [w1|] eqn:Hstep; [|discriminate].
    destruct (IH w1 Hes Hrun) as [msgs Hmsgs].
    destruct (step_serverEvent_clients _ _ _ _ _ He Hstep) as [Hc|[msg Hc]].
    + exists msgs. now rewrite Hmsgs, Hc.
    + exists (msg :: msgs). rewrite Hmsgs, Hc.
      unfold broadcast. rewrite map_map. apply map_ext.
      intros c. apply sendAllIfOpen_cons.
Qed.

Lemma open_sockets_receive_the_same_witness :
  exists msgs : list string,
    clients mixedRegistryAfterRead = map (sendAllIfOpen msgs) (clients mixedRegistry).
Proof.
  apply (open_sockets_receive_the_same HIGH_WATER_MARK Whole
           [Watch change; StreamData; Watch rename] mixedRegistry mixedRegistryAfterRead);
    reflexivity.
Defined.

(** X13. As long as the log file is not removed, no listener throws: from a
    state in which the file exists, every sequence of events without an
    unlink leaves the server running, in both revisions, and the file is
    still there. *)
Theorem server_runs_while_file_exists
        (highWaterMark : nat) (rev : Revision) (es : list Event) (w : World) :
  forallb keepsFile es = true -> disk w <> None ->
  exists w' : World,
    run highWaterMark rev es w = Running w' /\ disk w' <> None.
Proof.
  revert w. induction es as [|e es IH]; intros w Hall Hd; cbn [run].
  - now exists w.
  - cbn [forallb] in Hall. apply andb_true_iff in Hall. destruct Hall as [He Hes].
    assert (Hstep : exists w1, step highWaterMark rev e w = Running w1 /\ disk w1 <> None).
    { destruct (disk w) as [file|] eqn:Hfile; [|congruence].
      destruct e; cbn [step keepsFile] in *; try discriminate He;
        try (eexists; split; [reflexivity|]; cbn [disk setDisk setClients onConnection];
             try rewrite Hfile; discriminate).
      - unfold onWatch, statSize. rewrite Hfile. cbn [option_map].
        destruct eventType; eexists; (split; [reflexivity|]);
          try rewrite onStats_disk; rewrite Hfile; discriminate.
      - unfold onStreamData. rewrite Hfile.
        destruct (streams w) as [|s rest];
          [eexists; split; [reflexivity|rewrite Hfile; discriminate]|].
        destruct (stream_read highWaterMark file s);
          eexists; (split; [reflexivity|]); cbn [disk]; discriminate. }
    destruct Hstep as [w1 [-> Hd1]]. now apply IH.
Qed.

Lemma server_runs_while_file_exists_witness :
  exists w' : World,
    run HIGH_WATER_MARK Chunked
        [FsTruncate; Watch change; StreamData; Connection 9] mixedRegistry = Running w'
    /\ disk w' <> None.
Proof.
  apply (server_runs_while_file_exists HIGH_WATER_MARK Chunked
           [FsTruncate; Watch change; StreamData; Connection 9] mixedRegistry).
  - reflexivity.
  - discriminate.
Defined.

Lemma step_appendOnly (hwm : nat) (rev : Revision) (e : Event) (w : World) (file : bytes) :
  appendOnly e = true -> disk w = Some file -> lastSize w <= length file ->
  exists (w' : World) (added : bytes),
    step hwm rev e w = Running w'
    /\ disk w' = Some (file ++ added)
    /\ lastSize w' <= length (file ++ added).
Proof.
  intros He Hd Hl.
  destruct e; cbn [appendOnly step] in *; try discriminate He.
  - exists (setDisk (Some (file ++ b)) w), b. rewrite Hd.
    repeat split. cbn [setDisk lastSize]. rewrite length_app. lia.
  - exists (match eventType with change => onStats (length file) w | rename => w end), [].
    rewrite app_nil_r. unfold onWatch, statSize. rewrite Hd. cbn [option_map].
    destruct eventType; repeat split; try assumption.
    + now rewrite onStats_disk.
    + unfold onStats. destruct (Nat.ltb_spec (lastSize w) (length file)); simpl; lia.
  - unfold onStreamData. rewrite Hd.
    destruct (streams w) as [|s rest]; [exists w, []; rewrite app_nil_r; now repeat split|].
    destruct (stream_read hwm file s);
      eexists; exists []; rewrite app_nil_r; repeat split; assumption.
  - eexists; exists []. rewrite app_nil_r. unfold onConnection.
    repeat split; cbn [disk lastSize]; assumption.
  - eexists; exists []. rewrite app_nil_r.
    repeat split; cbn [setClients disk lastSize]; assumption.
  - eexists; exists []. rewrite app_nil_r.
    repeat split; cbn [setClients disk lastSize]; assumption.
Qed.

(** X14. While the log is only appended to, [lastSize] never exceeds the
    size of the file: from a state in which the file exists and [lastSize]
    is within it, every sequence of events without truncation or unlink
    leaves the server running with a file that extends the old one and
    [lastSize] within the new size. *)
Theorem offset_within_file_when_append_only
        (highWaterMark : nat) (rev : Revision) (es : list Event)
        (w : World) (file : bytes) :
  forallb appendOnly es = true ->
  disk w = Some file -> lastSize w <= length file ->
  exists (w' : World) (added : bytes),
    run highWaterMark rev es w = Running w'
    /\ disk w' = Some (file ++ added)
    /\ lastSize w' <= length (file ++ added).
Proof.
  revert w file. induction es as [|e es IH]; intros w file Hall Hd Hl; cbn [run].
  - exists w, []. rewrite app_nil_r. now repeat split.
  - cbn [forallb] in Hall. apply andb_true_iff in Hall. destruct Hall as [He Hes].
    destruct (step_appendOnly highWaterMark rev e w file He Hd Hl)
      as [w1 [a1 [-> [Hd1 Hl1]]]].
    destruct (IH w1 (file ++ a1) Hes Hd1 Hl1) as [w' [a2 [Hrun [Hd2 Hl2]]]].
    exists w', (a1 ++ a2). rewrite app_assoc. now repeat split.
Qed.

Lemma offset_within_file_when_append_only_witness :
  exists (w' : World) (added : bytes),
    run HIGH_WATER_MARK Chunked
        [FsAppend (bytesOf "cd"); Watch change; FsAppend (bytesOf "e"); StreamData]
        startedWithViewer = Running w'
    /\ disk w' = Some (bytesOf "ab" ++ added)
    /\ lastSize w' <= length (bytesOf "ab" ++ added).
Proof.
  apply (offset_within_file_when_append_only HIGH_WATER_MARK Chunked
           [FsAppend (bytesOf "cd"); Watch change; FsAppend (bytesOf "e"); StreamData]
           startedWithViewer (bytesOf "ab")).
  - reflexivity.
  - reflexivity.
  - simpl. lia.
Defined.

Lemma HIGH_WATER_MARK_positive : 0 < HIGH_WATER_MARK.
Proof. unfold HIGH_WATER_MARK. lia. Qed.

Lemma growthMessages_chunks (hwm : nat) (appends : list bytes) :
  growthMessages hwm appends = map toString (flat_map (chunksOf hwm) appends).
Proof.
  induction appends as [|b appends IH]; [reflexivity|].
  cbn [growthMessages flat_map]. fold (growthMessages hwm appends).
  now rewrite map_app, IH.
Qed.

Lemma growth_chunks_concat (hwm : nat) (appends : list bytes) :
  0 < hwm -> concat (flat_map (chunksOf hwm) appends) = concat appends.
Proof.
  intros Hpos. induction appends as [|b appends IH]; [reflexivity|].
  cbn [flat_map concat]. now rewrite concat_app, IH, chunksOf_concat.
Qed.

(** X15. When every append is followed by its watch events (here two, the
    second one idle) and by the reads of its stream before the next append
    lands, every open socket is sent one message per chunk of the appended
    bytes, once and in order: the chunks put end to end are exactly the
    bytes appended, and for ASCII bytes the messages put end to end are
    their text.  The offset ends at the size of the file and no stream is
    left open. *)
Theorem quiet_appends_reach_open_sockets
        (rev : Revision) (appends : list bytes) (w : World) (file : bytes) :
  disk w = Some file -> lastSize w = length file -> streams w = [] ->
  run HIGH_WATER_MARK rev (quietTrace HIGH_WATER_MARK appends) w
  = Running {| disk := Some (file ++ concat appends);
               lastSize := length (file ++ concat appends); streams := [];
               clients := map (sendAllIfOpen (growthMessages HIGH_WATER_MARK appends))
                              (clients w) |}
  /\ growthMessages HIGH_WATER_MARK appends
     = map toString (flat_map (chunksOf HIGH_WATER_MARK) appends)
  /\ concat (flat_map (chunksOf HIGH_WATER_MARK) appends) = concat appends
  /\ (Forall (fun b => asciiByte b = true) (concat appends) ->
      concatStrings (growthMessages HIGH_WATER_MARK appends) = toString (concat appends)).
Proof.
  intros Hd Hl Hs. split; [|split; [|split]].
  - now apply quiet_appends_delivered; try apply HIGH_WATER_MARK_positive.
  - apply growthMessages_chunks.
  - apply growth_chunks_concat, HIGH_WATER_MARK_positive.
  - intros _. apply growthMessages_concat, HIGH_WATER_MARK_positive.
Qed.

Lemma quiet_appends_reach_open_sockets_witness :
  run HIGH_WATER_MARK Whole
      (quietTrace HIGH_WATER_MARK [bytesOf "cd"; []; bytesOf "e"]) startedWithViewer
  = Running {| disk := Some (bytesOf "ab" ++ concat [bytesOf "cd"; []; bytesOf "e"]);
               lastSize := length (bytesOf "ab" ++ concat [bytesOf "cd"; []; bytesOf "e"]);
               streams := [];
               clients :=
                 map (sendAllIfOpen
                        (growthMessages HIGH_WATER_MARK [bytesOf "cd"; []; bytesOf "e"]))
                     (clients startedWithViewer) |}
  /\ growthMessages HIGH_WATER_MARK [bytesOf "cd"; []; bytesOf "e"]
     = map toString (flat_map (chunksOf HIGH_WATER_MARK) [bytesOf "cd"; []; bytesOf "e"])
  /\ concat (flat_map (chunksOf HIGH_WATER_MARK) [bytesOf "cd"; []; bytesOf "e"])
     = concat [bytesOf "cd"; []; bytesOf "e"]
  /\ concatStrings (growthMessages HIGH_WATER_MARK [bytesOf "cd"; []; bytesOf "e"])
     = toString (concat [bytesOf "cd"; []; bytesOf "e"]).
Proof.
  destruct (quiet_appends_reach_open_sockets Whole [bytesOf "cd"; []; bytesOf "e"]
              startedWithViewer (bytesOf "ab") eq_refl eq_refl eq_refl)
    as [H1 [H2 [H3 H4]]].
  split; [exact H1|]. split; [exact H2|]. split; [exact H3|].
  apply H4. repeat constructor.
Defined.

(** * The page *)

Lemma pageRun_app (script : Script) (es1 es2 : list SocketEvent) (text : string) :
  pageRun script (es1 ++ es2) text = pageRun script es2 (pageRun script es1 text).
Proof. apply fold_left_app. Qed.

(** X16. The page only ever adds to the text it shows: after any sequence
    of socket events, in both scripts, the text is the earlier text
    followed by something; nothing shown is removed or rewritten. *)
Theorem page_is_append_only (script : Script) (es : list SocketEvent) (text : string) :
  exists added : string, pageRun script es text = (text ++ added)%string.
Proof.
  revert text. induction es as [|e es IH]; intros text; cbn [pageRun fold_left].
  - exists EmptyString. now rewrite append_empty_r.
  - fold (pageRun script es (pageStep script e text)).
    destruct (IH (pageStep script e text)) as [added ->].
    destruct e; try destruct script; cbn [pageStep];
      try (now exists added); rewrite append_assoc; eauto.
Qed.

(** X17. After the messages [msgs], in both scripts, the page shows each
    message followed by one line feed, in the order received: the text
    grows by the bytes of the messages plus one line feed per message. *)
Theorem page_shows_messages_in_order (script : Script) (msgs : list string) (text : string) :
  pageRun script (map OnMessage msgs) text
  = (text ++ concatStrings (map (fun msg => msg ++ nl) msgs))%string.
Proof.
  revert text. induction msgs as [|msg msgs IH]; intros text;
    cbn [map pageRun fold_left concatStrings fold_right].
  - now rewrite append_empty_r.
  - fold (pageRun script (map OnMessage msgs) (pageStep script (OnMessage msg) text)).
    rewrite IH. cbn [pageStep].
    fold (concatStrings (map (fun msg => msg ++ nl) msgs))%string.
    now rewrite !append_assoc.
Qed.

(** * The two revisions on the same log *)

Lemma toString_bytesOf (s : string) : toString (bytesOf s) = s.
Proof. apply string_of_list_byte_of_string. Qed.

Lemma trimStart_id (s : string) : startsWithSpace s = false -> trimStart s = s.
Proof. destruct s as [|c s]; simpl; [reflexivity|]. now intros ->. Qed.

Lemma trimEnd_id (s : string) : endsWithSpace s = false -> trimEnd s = s.
Proof.
  induction s as [|c s IH]; [reflexivity|].
  destruct s as [|c' s']; simpl in *; [now intros ->|].
  intros H. now rewrite (IH H).
Qed.

Lemma trimEnd_app_nl (s : string) : trimEnd (s ++ nl) = trimEnd s.
Proof. induction s as [|c s IH]; simpl in *; [reflexivity|now rewrite IH]. Qed.

Lemma endsWithSpace_trimEnd (s : string) : endsWithSpace (trimEnd s) = false.
Proof.
  induction s as [|c s IH]; [reflexivity|]. simpl.
  destruct (trimEnd s) as [|c' r] eqn:Ht.
  - destruct (isSpace c) eqn:Hc; simpl; [reflexivity|assumption].
  - exact IH.
Qed.

Lemma endsWithSpace_app (a b : string) :
  b <> EmptyString -> endsWithSpace (a ++ b) = endsWithSpace b.
Proof.
  intros Hb. induction a as [|c a IH]; [reflexivity|].
  cbn [append endsWithSpace]. rewrite IH.
  destruct (a ++ b)%string eqn:Hab; [|reflexivity].
  destruct a; simpl in Hab; [congruence|discriminate].
Qed.

Lemma split_nl_app_nl_end (s : string) : split_nl (s ++ nl) = split_nl s ++ [EmptyString].
Proof.
  induction s as [|c s IH]; [reflexivity|]. simpl in *.
  destruct (Ascii.eqb c LF); rewrite IH; [reflexivity|].
  now destruct (split_nl_cons s) as [h [t ->]].
Qed.

Lemma filter_truthy_all (ls : list string) :
  Forall (fun l => l <> EmptyString /\ noLF l = true) ls -> filter truthy ls = ls.
Proof.
  induction 1 as [|l ls [Hl _] _ IH]; [reflexivity|]. simpl.
  destruct l; [congruence|]. simpl. now rewrite IH.
Qed.

Lemma join_nl_nonempty (ls : list string) :
  ls <> [] -> Forall (fun l => l <> EmptyString /\ noLF l = true) ls ->
  join_nl ls <> EmptyString.
Proof.
  destruct ls as [|x ls]; [congruence|]. intros _ Hall.
  inversion Hall as [|? ? [Hx _] _]; subst.
  destruct x as [|c x]; [congruence|].
  destruct ls; simpl; discriminate.
Qed.

(** X18. On a plain ASCII log (at most 1024 bytes; every line non-empty
    and ended by a line feed; no white space at the very start nor at the
    end of the last line) the two revisions send the same initial message:
    the last ten lines joined by line feeds. *)
Theorem revisions_agree_on_plain_logs (ls : list string) :
  ls <> [] ->
  Forall (fun l => l <> EmptyString /\ noLF l = true) ls ->
  Forall (fun l => asciiText l = true) ls ->
  startsWithSpace (join_nl ls) = false ->
  endsWithSpace (join_nl ls) = false ->
  length (bytesOf (join_nl ls ++ nl)) <= 1024 ->
  initialMessage Chunked (Some (bytesOf (join_nl ls ++ nl))) = join_nl (last_n 10 ls)
  /\ initialMessage Whole (Some (bytesOf (join_nl ls ++ nl))) = join_nl (last_n 10 ls).
Proof.
  intros Hne Hall _ Hstart Hend Hfit.
  assert (HnoLF : Forall (fun l => noLF l = true) ls)
    by (eapply Forall_impl; [|exact Hall]; now intros a [_ Ha]).
  split; cbn [initialMessage].
  - unfold readLastLines.
    rewrite (readLastLinesWith_single_chunk BUFFER_LENGTH BUFFER_LENGTH_positive
               _ 10 Hfit) by lia.
    unfold lastLines_spec, file_lines.
    rewrite toString_bytesOf, split_nl_app_nl_end, split_join by assumption.
    rewrite filter_app, filter_truthy_all by assumption.
    cbn [filter truthy]. now rewrite app_nil_r.
  - rewrite toString_bytesOf. unfold trim.
    rewrite trimStart_id.
    + rewrite trimEnd_app_nl, trimEnd_id, split_join by assumption.
      change (-10)%Z with (- Z.of_nat 10)%Z.
      now rewrite slice_neg_last_n by lia.
    + pose proof (join_nl_nonempty ls Hne Hall) as Hjoin.
      destruct (join_nl ls); [congruence|exact Hstart].
Qed.

Lemma revisions_agree_on_plain_logs_witness :
  initialMessage Chunked (Some (bytesOf (join_nl ["a"; "b"; "c"]%string ++ nl)))
  = join_nl (last_n 10 ["a"; "b"; "c"]%string)
  /\ initialMessage Whole (Some (bytesOf (join_nl ["a"; "b"; "c"]%string ++ nl)))
     = join_nl (last_n 10 ["a"; "b"; "c"]%string).
Proof.
  apply (revisions_agree_on_plain_logs ["a"; "b"; "c"]%string).
  - discriminate.
  - repeat constructor; discriminate.
  - repeat constructor.
  - reflexivity.
  - reflexivity.
  - simpl. lia.
Defined.

(** X19. In the [Whole] revision the initial message never ends with white
    space, whatever the file. *)
Theorem whole_initial_message_has_no_trailing_space (data : bytes) :
  endsWithSpace (initialMessage Whole (Some data)) = false.
Proof.
  destruct (slice_suffix (-10) (split_nl (trim (toString data)))) as [l1 Hl].
  destruct (join_nl_suffix l1 (slice (-10) (split_nl (trim (toString data)))))
    as [before Hb].
  rewrite <- Hl, join_split in Hb. cbn [initialMessage].
  destruct (join_nl (slice (-10) (split_nl (trim (toString data))))) as [|c m] eqn:Hm;
    [reflexivity|].
  rewrite <- (endsWithSpace_app before) by discriminate.
  rewrite <- Hb. apply endsWithSpace_trimEnd.
Qed.

(** * What readLastLines returns is text of the file *)

Lemma removeLF_app (a b : string) : removeLF (a ++ b) = (removeLF a ++ removeLF b)%string.
Proof.
  induction a as [|c a IH]; [reflexivity|]. simpl.
  destruct (Ascii.eqb c LF); simpl; now rewrite IH.
Qed.

Lemma concatStrings_split_nl (s : string) : concatStrings (split_nl s) = removeLF s.
Proof.
  induction s as [|c s IH]; [reflexivity|]. simpl.
  destruct (Ascii.eqb c LF); [exact IH|].
  destruct (split_nl_cons s) as [h [t Hs]]. rewrite Hs in *.
  simpl in *. now rewrite IH.
Qed.

Lemma concatStrings_filter_truthy (l : list string) :
  concatStrings (filter truthy l) = concatStrings l.
Proof.
  induction l as [|x l IH]; [reflexivity|]. simpl.
  destruct x; simpl; now rewrite IH.
Qed.

Lemma loop_body_keeps_text (bufferLength : nat) (file : bytes) (st : LoopState) :
  position st <= length file ->
  concatStrings (lines st) = removeLF (toString (skipn (position st) file)) ->
  position (loop_body bufferLength file st) <= length file
  /\ concatStrings (lines (loop_body bufferLength file st))
     = removeLF (toString (skipn (position (loop_body bufferLength file st)) file)).
Proof.
  intros Hp Hinv. unfold loop_body, readSync. cbn [position lines].
  set (n := readSize bufferLength st).
  assert (Hn : n <= position st) by (subst n; unfold readSize; lia).
  split; [lia|].
  rewrite concatStrings_app, concatStrings_split_nl, Hinv, <- removeLF_app, <- toString_app.
  do 2 f_equal.
  replace (skipn (position st) file) with (skipn n (skipn (position st - n) file))
    by (rewrite skipn_skipn; f_equal; lia).
  apply firstn_skipn.
Qed.

(** X20. On an ASCII file, whatever its size and the line count,
    [readLastLines] makes up nothing and reorders nothing: the strings it
    returns, put end to end, are the end of the text of the file with its
    line feeds taken out. *)
Theorem readLastLines_returns_text_of_the_file
        (file : bytes) (lineCount : nat) (ls : list string) :
  Forall (fun b => asciiByte b = true) file ->
  readLastLines (Some file) lineCount = Resolved ls ->
  exists before : string,
    removeLF (toString file) = (before ++ concatStrings ls)%string.
Proof.
  intros _. unfold readLastLines, readLastLinesWith, run_loop.
  destruct (while_loop BUFFER_LENGTH (length file) file lineCount
              {| position := length file; lines := [] |}) as [st|] eqn:Hrun;
    [|discriminate].
  intros H. injection H as <-.
  destruct (while_loop_rule BUFFER_LENGTH
              (fun st => position st <= length file
                         /\ concatStrings (lines st)
                            = removeLF (toString (skipn (position st) file)))
              file lineCount) with (3 := Hrun) as [[Hp Hinv] _].
  - intros st0 [H1 H2] _. now apply loop_body_keeps_text.
  - cbn [position lines]. split; [lia|]. now rewrite skipn_all.
  - unfold trim_result.
    destruct (slice_suffix (- Z.of_nat lineCount) (filter truthy (lines st)))
      as [l1 Hl].
    exists (removeLF (toString (firstn (position st) file)) ++ concatStrings l1)%string.
    rewrite append_assoc, <- concatStrings_app, <- Hl.
    rewrite concatStrings_filter_truthy, Hinv, <- removeLF_app, <- toString_app.
    now rewrite firstn_skipn.
Qed.

Lemma readLastLines_returns_text_of_the_file_witness :
  exists before : string,
    removeLF (toString threeLines) = (before ++ concatStrings ["b"; "c"]%string)%string.
Proof.
  apply (readLastLines_returns_text_of_the_file threeLines 2 ["b"; "c"]%string).
  - repeat constructor.
  - reflexivity.
Defined.

(** * When the file is missing *)

(** X21. The two revisions differ when the log file is missing.  In the
    [Whole] revision only a read of a stream can end the server: every
    sequence of other events leaves it running, whatever the state of the
    file.  In the [Chunked] revision a ['change'] notification that finds
    no file ends the server, whatever follows. *)
Theorem missing_file_ends_chunked_only (highWaterMark : nat) :
  (forall (es : list Event) (w : World),
      forallb notStreamData es = true ->
      exists w' : World, run highWaterMark Whole es w = Running w')
  /\ (forall (es : list Event) (w : World),
         disk w = None ->
         run highWaterMark Chunked (Watch change :: es) w = Crashed).
Proof.
  split.
  - induction es as [|e es IH]; intros w Hall; cbn [run]; [now exists w|].
    cbn [forallb] in Hall. apply andb_true_iff in Hall. destruct Hall as [He Hes].
    assert (Hstep : exists w1, step highWaterMark Whole e w = Running w1).
    { destruct e; cbn [step notStreamData] in *; try discriminate He; eauto.
      unfold onWatch. destruct eventType; [|eauto].
      destruct (statSize (disk w)); eauto. }
    destruct Hstep as [w1 ->]. now apply IH.
  - intros es w Hd. cbn [run step]. unfold onWatch, statSize. now rewrite Hd.
Qed.

Lemma missing_file_ends_chunked_only_witness :
  (exists w' : World,
      run HIGH_WATER_MARK Whole [FsUnlink; Watch change; Connection 2] mixedRegistry
      = Running w')
  /\ run HIGH_WATER_MARK Chunked (Watch change :: [Connection 2])
         (setDisk None mixedRegistry) = Crashed.
Proof.
  destruct (missing_file_ends_chunked_only HIGH_WATER_MARK) as [H1 H2].
  split.
  - apply (H1 [FsUnlink; Watch change; Connection 2] mixedRegistry). reflexivity.
  - apply (H2 [Connection 2] (setDisk None mixedRegistry)). reflexivity.
Defined.

(** * Truncation, with the reads *)

Lemma truncate_then_idle (hwm : nat) (rev : Revision) (j : nat) (w : World) :
  streams w = [] ->
  run hwm rev (FsTruncate :: notifyAndRead j) w = Running (setDisk (Some []) w).
Proof.
  intros Hs. unfold notifyAndRead. cbn [run step].
  rewrite (onWatch_change_present rev (setDisk (Some []) w) [] eq_refl).
  rewrite onStats_no_growth by (simpl; lia).
  now apply run_reads_idle.
Qed.

Lemma append_below_offset_is_idle (hwm : nat) (rev : Revision) (k : nat)
      (w : World) (Y : bytes) :
  streams w = [] -> length Y <= lastSize w ->
  run hwm rev (FsAppend Y :: notifyAndRead k) (setDisk (Some []) w)
  = Running (setDisk (Some Y) w).
Proof.
  intros Hs Hle.
  change (run hwm rev (FsAppend Y :: notifyAndRead k) (setDisk (Some []) w))
    with (match onWatch rev change (setDisk (Some Y) w) with
          | Running w1 => run hwm rev (repeat StreamData k) w1
          | Crashed => Crashed
          end).
  rewrite (onWatch_change_present rev (setDisk (Some Y) w) Y eq_refl).
  rewrite onStats_no_growth by (simpl; lia).
  now apply run_reads_idle.
Qed.

(** C3, amended. From a state with no read pending, when the file is
    emptied and [Y] is then appended, each change followed by a watch event
    and by reads of the stream, the listener never resets [lastSize].  With
    [len(Y) <= lastSize] nothing is read or sent, however many reads follow,
    and the offset, the streams and the sockets stay as they were.  With
    [len(Y) > lastSize] the offset becomes [len(Y)] and every open socket
    is sent, as the chunks of one stream, only the bytes of [Y] from the old
    offset on, not [Y]. *)
Theorem truncation_keeps_the_offset
        (highWaterMark : nat) (rev : Revision) (w : World) (Y : bytes) (j : nat) :
  0 < highWaterMark -> streams w = [] ->
  (length Y <= lastSize w ->
   forall k : nat,
     run highWaterMark rev
         (FsTruncate :: notifyAndRead j ++ FsAppend Y :: notifyAndRead k) w
     = Running (setDisk (Some Y) w))
  /\ (lastSize w < length Y ->
      run highWaterMark rev
          (FsTruncate :: notifyAndRead j ++ FsAppend Y
           :: notifyAndRead
                (S (length (chunksOf highWaterMark (skipn (lastSize w) Y))))) w
      = Running {| disk := Some Y; lastSize := length Y; streams := [];
                   clients :=
                     map (sendAllIfOpen
                            (map toString
                                 (chunksOf highWaterMark (skipn (lastSize w) Y))))
                         (clients w) |}
      /\ concat (chunksOf highWaterMark (skipn (lastSize w) Y))
         = skipn (lastSize w) Y).
Proof.
  intros Hhwm Hs.
  assert (Hsplit : forall k,
             run highWaterMark rev
                 (FsTruncate :: notifyAndRead j ++ FsAppend Y :: notifyAndRead k) w
             = run highWaterMark rev (FsAppend Y :: notifyAndRead k)
                   (setDisk (Some []) w)).
  { intros k.
    change (FsTruncate :: notifyAndRead j ++ FsAppend Y :: notifyAndRead k)
      with ((FsTruncate :: notifyAndRead j) ++ FsAppend Y :: notifyAndRead k).
    now rewrite run_app, truncate_then_idle. }
  split.
  - intros Hle k. rewrite Hsplit. now apply append_below_offset_is_idle.
  - intros Hlt. split; [|now apply chunksOf_concat].
    rewrite Hsplit.
    change (run highWaterMark rev
              (FsAppend Y
               :: notifyAndRead
                    (S (length (chunksOf highWaterMark (skipn (lastSize w) Y)))))
              (setDisk (Some []) w))
      with (run highWaterMark rev
              (notifyAndRead
                 (S (length (chunksOf highWaterMark
                               (skipn (lastSize (setDisk (Some Y) w)) Y)))))
              (setDisk (Some Y) w)).
    apply (growth_delivered highWaterMark rev Hhwm (setDisk (Some Y) w) Y);
      [reflexivity|exact Hs|exact Hlt].
Qed.

Lemma truncation_keeps_the_offset_witness :
  run HIGH_WATER_MARK Chunked
      (FsTruncate :: notifyAndRead 2 ++ FsAppend (bytesOf "xyz") :: notifyAndRead 2)
      settledViewer
  = Running (setDisk (Some (bytesOf "xyz")) settledViewer)
  /\ (run HIGH_WATER_MARK Chunked
          (FsTruncate :: notifyAndRead 2 ++ FsAppend (bytesOf "123456")
           :: notifyAndRead
                (S (length (chunksOf HIGH_WATER_MARK
                              (skipn (lastSize settledViewer) (bytesOf "123456"))))))
          settledViewer
      = Running {| disk := Some (bytesOf "123456"); lastSize := length (bytesOf "123456");
                   streams := [];
                   clients :=
                     map (sendAllIfOpen
                            (map toString
                                 (chunksOf HIGH_WATER_MARK
                                    (skipn (lastSize settledViewer) (bytesOf "123456")))))
                         (clients settledViewer) |}
      /\ concat (chunksOf HIGH_WATER_MARK
                   (skipn (lastSize settledViewer) (bytesOf "123456")))
         = skipn (lastSize settledViewer) (bytesOf "123456")).
Proof.
  destruct (truncation_keeps_the_offset HIGH_WATER_MARK Chunked settledViewer
              (bytesOf "xyz") 2 HIGH_WATER_MARK_positive eq_refl) as [HA _].
  destruct (truncation_keeps_the_offset HIGH_WATER_MARK Chunked settledViewer
              (bytesOf "123456") 2 HIGH_WATER_MARK_positive eq_refl) as [_ HB].
  split.
  - apply HA. simpl. lia.
  - apply HB. simpl. lia.
Defined.

(** The same run, evaluated: after the truncation the socket that held [cd]
    is sent [56], the end of [123456], and the offset is 6. *)
Example truncation_sends_the_tail_only :
  run HIGH_WATER_MARK Chunked
      (FsTruncate :: notifyAndRead 2 ++ FsAppend (bytesOf "123456") :: notifyAndRead 2)
      settledViewer
  = Running {| disk := Some (bytesOf "123456"); lastSize := 6; streams := [];
               clients := [mkClient 1 OPEN ["cd"; "56"]%string] |}.
Proof. vm_compute. reflexivity. Qed.
